(** * DAAM: token-merge resolver and mask accumulator

    A shallow embedding of the two pieces of [daam] that carry logic:
    - [compute_token_merge_indices] of [daam/utils.py], which maps a word
      of a prompt to the positions of the sub-word tokens that spell it;
    - [_add_mask] of [daam/experiment.py], which accumulates per-label
      masks in a dictionary, with the tables [COCO80_LABELS],
      [COCOSTUFF27_LABELS] and [COCO80_TO_27].

    Python values are modelled as follows.
    - [str] is [string]; a character is one of the code points
      U+0000..U+00FF, so [str.lower] and [str.isspace] are the Latin-1
      restrictions of the Unicode ones.
    - [int] is [Z] where the caller chooses it ([word_idx]) and [nat]
      where the code counts from zero (positions, the word counter).
    - A raised exception is an [outcome] of the form [Raise e].
    - A [dict] is a [gmap]; a dict object lives in a [store] under a
      reference, so that mutation in place and object identity can be
      stated.
    - A mask is a tensor of a fixed shape whose entries are
      single-precision floating-point numbers, with the rounding, the
      infinities and the NaN of IEEE 754. *)

From Stdlib Require Import ZArith List String Ascii Bool Lia.
From Stdlib Require Import SpecFloat.
From stdpp Require Import base option list strings gmap vector sorting pretty.

Local Open Scope string_scope.
Local Open Scope list_scope.

(** ** Exceptions *)

Inductive exn : Type :=
| ValueError (msg : string)
| KeyError (key : string).

Inductive outcome (A : Type) : Type :=
| Return (a : A)
| Raise (e : exn).

Arguments Return {A} a.
Arguments Raise {A} e.

(** ** Python string operations *)

Module Str.

(** [c.lower()] for a code point below U+0100: the letters A-Z and the
    Latin-1 capitals U+00C0..U+00DE (the sign U+00D7 apart) move up by
    32, every other character is kept. *)
Definition lower_char (c : ascii) : ascii :=
  let n := nat_of_ascii c in
  if ((65 <=? n) && (n <=? 90))%nat then ascii_of_nat (n + 32)
  else if ((192 <=? n) && (n <=? 222) && negb (n =? 215))%nat
       then ascii_of_nat (n + 32)
       else c.

(** [s.lower()] *)
Fixpoint lower (s : string) : string :=
  match s with
  | EmptyString => EmptyString
  | String c s' => String (lower_char c) (lower s')
  end.

(** [c.isspace()] below U+0100: U+0009..U+000D, U+001C..U+0020,
    U+0085 and U+00A0. *)
Definition isspace (c : ascii) : bool :=
  let n := nat_of_ascii c in
  (((9 <=? n) && (n <=? 13)) || ((28 <=? n) && (n <=? 32))
   || (n =? 133) || (n =? 160))%nat.

Definition is_empty (s : string) : bool :=
  match s with EmptyString => true | String _ _ => false end.

(** [s.split()]: the maximal runs of non-whitespace characters, in
    order; [cur] is the run being read. *)
Fixpoint split_go (cur s : string) : list string :=
  match s with
  | EmptyString => if is_empty cur then [] else [cur]
  | String c s' =>
      if isspace c
      then (if is_empty cur then split_go EmptyString s'
            else cur :: split_go EmptyString s')
      else split_go (cur +:+ String c EmptyString) s'
  end.

Definition split (s : string) : list string := split_go EmptyString s.

(** [l.index(x)]: the first position of [x]; [None] stands for the
    [ValueError] that [list.index] raises when [x] is absent. *)
Fixpoint index (l : list string) (x : string) : option nat :=
  match l with
  | [] => None
  | y :: l' => if String.eqb y x then Some 0%nat else S <$> index l' x
  end.

(** [sub in s] *)
Fixpoint contains (sub s : string) : bool :=
  if String.prefix sub s then true
  else match s with
       | EmptyString => false
       | String _ s' => contains sub s'
       end.

(** [s[:-n]]: all but the last [n] characters, nothing when [s] is
    shorter than [n]. *)
Definition drop_last (n : nat) (s : string) : string :=
  String.substring 0 (String.length s - n) s.

End Str.

(** ** [daam/utils.py]: [compute_token_merge_indices] *)

(** The end-of-word marker of the tokenizer. *)
Definition EOW : string := "</w>".

(** The local variables of the token walk. *)
Record walk : Type := Walk {
  merge_idxs : list nat;
  curr_idx : nat;
  curr_token : string
}.

(** What one pass through the loop body does to the control flow. *)
Inductive ctl : Type :=
| Next (s : walk)
| Break (s : walk).

(** The body of [for idx, token in enumerate(tokens)]. *)
Definition walk_body (word : string) (word_idx : Z)
    (idx : nat) (token : string) (s : walk) : ctl :=
  let m := merge_idxs s ++ [idx] in
  if Str.contains EOW token then
    let ct := curr_token s +:+ Str.drop_last 4 token in
    if (Z.of_nat (curr_idx s) =? word_idx)%Z && String.eqb ct word
    then Break (Walk m (curr_idx s) ct)
    else Next (Walk [] (S (curr_idx s)) EmptyString)
  else Next (Walk (m ++ [idx]) (curr_idx s) (curr_token s +:+ token)).

(** The loop from position [idx] on.  The boolean tells whether the loop
    was left through [break]. *)
Fixpoint walk_loop (word : string) (word_idx : Z)
    (idx : nat) (tokens : list string) (s : walk) : walk * bool :=
  match tokens with
  | [] => (s, false)
  | token :: rest =>
      match walk_body word word_idx idx token s with
      | Break s' => (s', true)
      | Next s' => walk_loop word word_idx (S idx) rest s'
      end
  end.

Definition walk_init : walk := Walk [] 0 EmptyString.

(** The punctuation marks retried by the search, in the order of the
    source. *)
Definition PUNCTS : list string := ["."; ","; "!"; "?"].

(** [for punct in (...): try: word_idx = words.index(word + punct); break] *)
Fixpoint try_puncts (words : list string) (word : string)
    (puncts : list string) : option nat :=
  match puncts with
  | [] => None
  | punct :: rest =>
      match Str.index words (word +:+ punct) with
      | Some i => Some i
      | None => try_puncts words word rest
      end
  end.

(** The search run when [word_idx is None]; [prompt] and [word] are
    already lower-cased.  [None]: [word_idx] is still [None] after it. *)
Definition find_word_idx (prompt word : string) : option nat :=
  match Str.index (Str.split prompt) word with
  | Some i => Some i
  | None => try_puncts (Str.split prompt) word PUNCTS
  end.

Definition dquote : string := String "034"%char EmptyString.

(** The message of the [ValueError]: the word and the prompt, both
    lower-cased, each between double quotes. *)
Definition not_found_msg (word prompt : string) : string :=
  "Couldn't find " +:+ dquote +:+ word +:+ dquote
    +:+ " in " +:+ dquote +:+ prompt +:+ dquote.

(** The block [if word_idx is None: ...]: the index the walk looks for,
    or the [ValueError] of the failed search. *)
Definition resolve_word_idx (prompt word : string) (word_idx : option Z)
    : outcome Z :=
  match word_idx with
  | Some i => Return i
  | None =>
      match find_word_idx prompt word with
      | Some i => Return (Z.of_nat i)
      | None => Raise (ValueError (not_found_msg word prompt))
      end
  end.

(** The function itself.  The tokenizer is the caller's: any function
    from the prompt to a list of tokens. *)
Definition compute_token_merge_indices (tokenize : string → list string)
    (prompt word : string) (word_idx : option Z) : outcome (list nat) :=
  let prompt := Str.lower prompt in
  let tokens := tokenize prompt in
  let word := Str.lower word in
  match resolve_word_idx prompt word word_idx with
  | Raise e => Raise e
  | Return word_idx =>
      Return (map S (merge_idxs
                       (walk_loop word word_idx 0 tokens walk_init).1))
  end.

(** Whether the walk ends by exhausting the tokens, the stop condition
    never met. *)
Definition walk_exhausted (tokens : list string) (word : string)
    (word_idx : Z) : bool :=
  negb (walk_loop word word_idx 0 tokens walk_init).2.

(** ** Vocabulary for the properties of the walk *)

(** Position [j] of [tokens] and every position after it hold tokens
    without the end-of-word marker. *)
Definition open_from (tokens : list string) (j : nat) : Prop :=
  (j < length tokens)%nat
  ∧ ∀ q t, (j ≤ q)%nat → tokens !! q = Some t → Str.contains EOW t = false.

(** A token stripped of its end-of-word marker. *)
Definition detok (token : string) : string :=
  if Str.contains EOW token then Str.drop_last 4 token else token.

(** The text a run of tokens spells: the tokens, stripped, one after the
    other. *)
Definition spell (run : list string) : string :=
  foldr (λ token text, detok token +:+ text) EmptyString run.

(** The tokens of one word: pieces without the marker, then one piece
    that carries it. *)
Definition word_run (run : list string) : Prop :=
  ∃ pieces final,
    run = pieces ++ [final]
    ∧ Forall (λ piece, Str.contains EOW piece = false) pieces
    ∧ Str.contains EOW final = true.

(** The tokens are aligned with the words: they fall into one run per
    word, in order, and every run spells its word. *)
Definition aligned (tokens words : list string) : Prop :=
  ∃ runs,
    tokens = concat runs
    ∧ Forall2 (λ run word, word_run run ∧ spell run = word) runs words.

(** The positions [start], ..., [start + k - 1], each one twice. *)
Definition twice_each (start k : nat) : list nat :=
  flat_map (λ j, [j; j]) (seq start k).

(** ** [daam/experiment.py]: the label tables *)

Definition COCO80_LABELS : list string := [
  "person"; "bicycle"; "car"; "motorcycle"; "airplane"; "bus"; "train";
  "truck"; "boat"; "traffic light";
  "fire hydrant"; "stop sign"; "parking meter"; "bench"; "bird"; "cat";
  "dog"; "horse"; "sheep"; "cow";
  "elephant"; "bear"; "zebra"; "giraffe"; "backpack"; "umbrella";
  "handbag"; "tie"; "suitcase"; "frisbee";
  "skis"; "snowboard"; "sports ball"; "kite"; "baseball bat";
  "baseball glove"; "skateboard"; "surfboard";
  "tennis racket"; "bottle"; "wine glass"; "cup"; "fork"; "knife";
  "spoon"; "bowl"; "banana"; "apple";
  "sandwich"; "orange"; "broccoli"; "carrot"; "hot dog"; "pizza";
  "donut"; "cake"; "chair"; "couch";
  "potted plant"; "bed"; "dining table"; "toilet"; "tv"; "laptop";
  "mouse"; "remote"; "keyboard"; "cell phone";
  "microwave"; "oven"; "toaster"; "sink"; "refrigerator"; "book";
  "clock"; "vase"; "scissors"; "teddy bear";
  "hair drier"; "toothbrush"
].

Definition COCOSTUFF27_LABELS : list string := [
  "electronic"; "appliance"; "food"; "furniture"; "indoor"; "kitchen";
  "accessory"; "animal"; "outdoor"; "person";
  "sports"; "vehicle"; "ceiling"; "floor"; "food"; "furniture";
  "rawmaterial"; "textile"; "wall"; "window";
  "building"; "ground"; "plant"; "sky"; "solid"; "structural"; "water"
].

(** The entries of the dict literal [COCO80_TO_27], in source order. *)
Definition COCO80_TO_27_items : list (string * string) := [
  ("bicycle", "vehicle"); ("car", "vehicle"); ("motorcycle", "vehicle");
  ("airplane", "vehicle"); ("bus", "vehicle");
  ("train", "vehicle"); ("truck", "vehicle"); ("boat", "vehicle");
  ("traffic light", "accessory"); ("fire hydrant", "accessory");
  ("stop sign", "accessory"); ("parking meter", "accessory");
  ("bench", "furniture"); ("bird", "animal"); ("cat", "animal");
  ("dog", "animal"); ("horse", "animal"); ("sheep", "animal");
  ("cow", "animal"); ("elephant", "animal"); ("bear", "animal");
  ("zebra", "animal"); ("giraffe", "animal"); ("backpack", "accessory");
  ("umbrella", "accessory"); ("handbag", "accessory");
  ("tie", "accessory"); ("suitcase", "accessory"); ("frisbee", "sports");
  ("skis", "sports"); ("snowboard", "sports");
  ("sports ball", "sports"); ("kite", "sports");
  ("baseball bat", "sports"); ("baseball glove", "sports");
  ("skateboard", "sports"); ("surfboard", "sports");
  ("tennis racket", "sports"); ("bottle", "food"); ("wine glass", "food");
  ("cup", "food"); ("fork", "food"); ("knife", "food"); ("spoon", "food");
  ("bowl", "food"); ("banana", "food"); ("apple", "food");
  ("sandwich", "food"); ("orange", "food"); ("broccoli", "food");
  ("carrot", "food"); ("hot dog", "food"); ("pizza", "food");
  ("donut", "food"); ("cake", "food"); ("chair", "furniture");
  ("couch", "furniture"); ("potted plant", "plant");
  ("bed", "furniture"); ("dining table", "furniture");
  ("toilet", "furniture"); ("tv", "electronic"); ("laptop", "electronic");
  ("mouse", "electronic"); ("remote", "electronic");
  ("keyboard", "electronic"); ("cell phone", "electronic");
  ("microwave", "appliance"); ("oven", "appliance");
  ("toaster", "appliance"); ("sink", "appliance");
  ("refrigerator", "appliance"); ("book", "indoor"); ("clock", "indoor");
  ("vase", "indoor"); ("scissors", "indoor");
  ("teddy bear", "indoor"); ("hair drier", "indoor");
  ("toothbrush", "indoor")
].

(** The dict built from the literal; a later entry for a key would
    replace an earlier one, as in Python (no key occurs twice here). *)
Definition COCO80_TO_27 : gmap string string :=
  foldl (λ m kv, <[kv.1 := kv.2]> m) ∅ COCO80_TO_27_items.

(** [d.get(key, default)] *)
Definition dict_get {V : Type} (d : gmap string V) (key : string)
    (dflt : V) : V :=
  match d !! key with Some v => v | None => dflt end.

(** [if simplify80: word = COCO80_TO_27.get(word, word)]: the label
    [_add_mask] works with. *)
Definition coarsen (simplify80 : bool) (word : string) : string :=
  if simplify80 then dict_get COCO80_TO_27 word word else word.

(** ** Tensors *)

(** An entry of a mask is a [torch.float32] number, the floating-point
    type torch gives a tensor by default and the one the composite branch
    asks for.  The numbers are those of the Standard Library's
    specification of IEEE 754: the two zeros, the two infinities, one NaN
    and the finite numbers [(-1)^s * m * 2^e].  The numbers a tensor can
    hold are the ones in canonical form, [valid_binary 24 128]; the
    definitions below are total and the theorems hold for every value. *)
Definition f32 : Type := spec_float.

Declare Scope f32_scope.
Delimit Scope f32_scope with f32.
Bind Scope f32_scope with f32.

(** The numbers 0, 1/4, 1/2, 1, 2 and 3/4 in single precision. *)
Definition f32_zero : f32 := S754_zero false.
Definition f32_quarter : f32 := S754_finite false 8388608 (-25).
Definition f32_half : f32 := S754_finite false 8388608 (-24).
Definition f32_one : f32 := S754_finite false 8388608 (-23).
Definition f32_two : f32 := S754_finite false 8388608 (-22).

Definition f32_three_quarters : f32 := S754_finite false 12582912 (-24).

Notation "0" := f32_zero : f32_scope.
Notation "1" := f32_one : f32_scope.
Notation "2" := f32_two : f32_scope.

(** [x + y] in single precision: the exact sum rounded to the nearest
    number, ties to even; NaN when an operand is NaN or the operands are
    infinities of opposite signs. *)
Definition f32_add (x y : f32) : f32 := SFadd 24 128 x y.

(** The comparison of two numbers; [None] when one of them is NaN. *)
Definition f32_compare (x y : f32) : option comparison := SFcompare x y.

(** [x <= y], which is false when one of them is NaN. *)
Definition f32_le (x y : f32) : Prop := SFleb x y = true.

(** The operands whose sum is NaN: one of them is NaN, or they are
    infinities of opposite signs. *)
Definition nan_sum (x y : f32) : Prop :=
  x = S754_nan ∨ y = S754_nan
  ∨ ∃ sign, x = S754_infinity sign ∧ y = S754_infinity (negb sign).

(** A mask is a [rows] by [cols] tensor.  All masks of one dictionary
    have the shape of the image they belong to, which is what makes their
    element-wise sum defined. *)
Abbreviation Tensor rows cols := (vec (vec f32 cols) rows).

(** [x] lies in the interval from 0 to 1; NaN does not. *)
Definition unit_interval (x : f32) : Prop := f32_le 0 x ∧ f32_le x 1.

Section tensor.
Context {rows cols : nat}.

(** [a + b], element-wise; a fresh tensor. *)
Definition tensor_add (a b : Tensor rows cols) : Tensor rows cols :=
  vzip_with (vzip_with f32_add) a b.

(** [min(max(x, lo), hi)], what [clamp] does to one entry: an entry
    below [lo] becomes [lo], an entry above [hi] becomes [hi], and every
    other entry stays, NaN included, which compares with nothing. *)
Definition clamp_elem (lo hi x : f32) : f32 :=
  let y := match f32_compare x lo with Some Lt => lo | _ => x end in
  match f32_compare y hi with Some Gt => hi | _ => y end.

(** The contents of [t] after [t.clamp_(lo, hi)]. *)
Definition clamp (lo hi : f32) (t : Tensor rows cols) : Tensor rows cols :=
  vmap (vmap (clamp_elem lo hi)) t.

(** Every entry of [t] satisfies [P]. *)
Definition tensor_all (P : f32 → Prop) (t : Tensor rows cols) : Prop :=
  ∀ (i : fin rows) (j : fin cols), P ((t !!! i) !!! j).

(** Every entry of [t] lies in the interval from 0 to 1. *)
Definition in_unit (t : Tensor rows cols) : Prop :=
  tensor_all unit_interval t.
End tensor.

(** ** The store of dict objects *)

(** A reference to a dict object. *)
Definition dref : Type := positive.

(** A small monad for Python code that reads and writes dict objects
    and may raise: a computation maps a store to an outcome and the
    store it leaves.  [None] is reserved for a reference that is not in
    the store, which no Python program can hold. *)
Section py.
Context {rows cols : nat}.

Definition Py (A : Type) : Type :=
  gmap dref (gmap string (Tensor rows cols)) →
  option (outcome A * gmap dref (gmap string (Tensor rows cols))).

Definition py_ret {A} (a : A) : Py A := λ σ, Some (Return a, σ).

Definition py_raise {A} (e : exn) : Py A := λ σ, Some (Raise e, σ).

Definition py_bind {A B} (m : Py A) (k : A → Py B) : Py B := λ σ,
  match m σ with
  | None => None
  | Some (Raise e, σ') => Some (Raise e, σ')
  | Some (Return a, σ') => k a σ'
  end.

(** [key in masks] *)
Definition dict_contains (masks : dref) (key : string) : Py bool := λ σ,
  match σ !! masks with
  | None => None
  | Some d => Some (Return (bool_decide (is_Some (d !! key))), σ)
  end.

(** [masks[key]] as an expression *)
Definition dict_getitem (masks : dref) (key : string)
    : Py (Tensor rows cols) := λ σ,
  match σ !! masks with
  | None => None
  | Some d =>
      match d !! key with
      | Some t => Some (Return t, σ)
      | None => Some (Raise (KeyError key), σ)
      end
  end.

(** [masks[key] = t] *)
Definition dict_setitem (masks : dref) (key : string)
    (t : Tensor rows cols) : Py unit := λ σ,
  match σ !! masks with
  | None => None
  | Some d => Some (Return tt, <[masks := <[key := t]> d]> σ)
  end.
End py.

Notation "'do' x ← m 'then' k" := (py_bind m (λ x, k))
  (at level 10, x name, m at level 100, k at level 200).
Notation "'exec' m 'then' k" := (py_bind m (λ _, k))
  (at level 10, m at level 100, k at level 200).

Section add_mask.
Context {rows cols : nat}.

(** [masks[key].clamp_(lo, hi)]: the tensor under [key] is looked up
    and clamped in place.  The only tensor [_add_mask] clamps is the sum
    it has just built, which nothing but the dict refers to, so the
    effect is that the entry holds the clamped value. *)
Definition dict_clamp_item (masks : dref) (key : string) (lo hi : f32)
    : Py unit :=
  do t ← dict_getitem (rows:=rows) (cols:=cols) masks key then
  dict_setitem masks key (clamp lo hi t).

Definition _add_mask (masks : dref) (word : string)
    (mask : Tensor rows cols) (simplify80 : bool) : Py dref :=
  let word := coarsen simplify80 word in
  do present ← dict_contains masks word then
  if present : bool then
    do old ← dict_getitem masks (Str.lower word) then
    exec dict_setitem masks word (tensor_add old mask) then
    exec dict_clamp_item masks word 0 1 then
    py_ret masks
  else
    exec dict_setitem masks word mask then
    py_ret masks.
End add_mask.

(** ** Vocabulary for the properties of [_add_mask] *)

(** A mask of a single pixel. *)
Definition pixel (q : f32) : Tensor 1 1 := [# [# q]].

(** A store with one dict object, under reference 1. *)
Definition one_dict (d : gmap string (Tensor 1 1))
    : gmap dref (gmap string (Tensor 1 1)) :=
  {[1%positive := d]}.

(** Two calls chained on the returned map, as the loaders do. *)
Definition add_mask_twice {rows cols : nat} (masks : dref) (word1 : string)
    (mask1 : Tensor rows cols) (word2 : string) (mask2 : Tensor rows cols)
    (simplify80 : bool) : Py dref :=
  do m ← _add_mask masks word1 mask1 simplify80 then
  _add_mask m word2 mask2 simplify80.

(** All keys of a dict are in lower case. *)
Definition lower_keys {V : Type} (d : gmap string V) : Prop :=
  ∀ k, is_Some (d !! k) → Str.lower k = k.

(** ** Further vocabulary for the walk *)

(** The number of tokens that carry the end-of-word marker. *)
Definition eow_count (tokens : list string) : nat :=
  length (filter (λ token, Str.contains EOW token = true) tokens).

(** The tokens [done] end a word: there is none, or the last one carries
    the marker. *)
Definition ends_word (done : list string) : Prop :=
  done = [] ∨ ∃ token, last done = Some token ∧ Str.contains EOW token = true.

(** What the walk holds after the tokens [pre]: the words read in full
    are counted, and the pieces read since are the buffer and the word
    being read. *)
Definition walk_inv (pre : list string) (s : walk) : Prop :=
  ∃ done cur,
    pre = done ++ cur
    ∧ ends_word done
    ∧ Forall (λ piece, Str.contains EOW piece = false) cur
    ∧ curr_idx s = eow_count done
    ∧ curr_token s = spell cur
    ∧ ∀ j, j ∈ merge_idxs s ↔ (length done ≤ j < length pre)%nat.

(** The words of a prompt, one after the other. *)
Definition join (words : list string) : string :=
  foldr String.append EmptyString words.

(** ** [daam/experiment.py]: file names and loaders *)

(** [s.split(sep)[0]] for a separator that is not empty: what comes
    before the first occurrence of [sep], all of [s] when there is
    none. *)
Fixpoint str_before (sep s : string) : string :=
  if String.prefix sep s then EmptyString
  else match s with
       | EmptyString => EmptyString
       | String c s' => String c (str_before sep s')
       end.

(** [save]: the name of the file of the ground-truth mask of [name],
    [f'{name.lower()}.gt.png']. *)
Definition gt_file_name (name : string) : string :=
  Str.lower name +:+ ".gt.png".

(** [save_prediction_mask]: the name of the file of the predicted mask
    of [word] for the prefix [name], [f'{word.lower()}.{name}.pred.png']. *)
Definition pred_file_name (word name : string) : string :=
  Str.lower word +:+ "." +:+ name +:+ ".pred.png".

(** [_load_truth_masks]: the label read off a file name,
    [mask_path.name.split('.gt.png')[0].lower()]. *)
Definition gt_word (file_name : string) : string :=
  Str.lower (str_before ".gt.png" file_name).

(** [_load_pred_masks]: the label read off a file name,
    [mask_path.name.split(f'.{pred_prefix}.pred')[0].lower()]. *)
Definition pred_word (pred_prefix file_name : string) : string :=
  Str.lower (str_before ("." +:+ pred_prefix +:+ ".pred") file_name).

Section loaders.
Context {rows cols : nat}.

(** [masks = {}]: a new dict object, under a reference the store does
    not hold yet. *)
Definition dict_new : Py (rows:=rows) (cols:=cols) dref := λ σ,
  let r := fresh (dom σ) in Some (Return r, <[r := ∅]> σ).

(** The loop of a loader.  [files] are the files the glob yields, in the
    order it yields them, each with the mask [load_mask] reads from it;
    [word_of] reads the label off the name. *)
Fixpoint for_files (word_of : string → string) (masks : dref)
    (files : list (string * Tensor rows cols)) (simplify80 : bool) : Py unit :=
  match files with
  | [] => py_ret tt
  | (file_name, mask) :: rest =>
      exec _add_mask masks (word_of file_name) mask simplify80 then
      for_files word_of masks rest simplify80
  end.

(** [GenerationExperiment._load_truth_masks], on the files that match
    [*.gt.png]. *)
Definition _load_truth_masks (files : list (string * Tensor rows cols))
    (simplify80 : bool) : Py dref :=
  do masks ← dict_new then
  exec for_files gt_word masks files simplify80 then
  py_ret masks.

(** [GenerationExperiment._load_pred_masks] with [composite=False], on
    the files that match [*.{pred_prefix}.pred.png]. *)
Definition _load_pred_masks_files (pred_prefix : string)
    (files : list (string * Tensor rows cols)) (simplify80 : bool) : Py dref :=
  do masks ← dict_new then
  exec for_files (pred_word pred_prefix) masks files simplify80 then
  py_ret masks.
End loaders.

(** A string without a dot. *)
Definition no_dot (s : string) : Prop := Str.contains "." s = false.

(** ** Paths and patterns *)

(** The character [c] occurs in [s]. *)
Fixpoint has_char (c : ascii) (s : string) : bool :=
  match s with
  | EmptyString => false
  | String c' s' => if ascii_dec c c' then true else has_char c s'
  end.

(** A string without a slash: one component of a POSIX path. *)
Definition no_slash (s : string) : Prop := has_char "/" s = false.

(** A string without the characters that a glob pattern reads as
    wildcards or as the start of a character class. *)
Definition glob_literal (s : string) : Prop :=
  has_char "*" s = false ∧ has_char "?" s = false ∧ has_char "[" s = false.

(** [path / name] for a [name] that is one component of a POSIX path:
    the path, a slash, and the name. *)
Definition path_join (path name : string) : string :=
  path +:+ "/" +:+ name.

(** [path.name]: the last component of a path, what follows its last
    slash; [name] is what has been read since the last slash. *)
Fixpoint path_name_from (name path : string) : string :=
  match path with
  | EmptyString => name
  | String c rest =>
      if ascii_dec c "/" then path_name_from EmptyString rest
      else path_name_from (name +:+ String c EmptyString) rest
  end.

Definition path_name (path : string) : string :=
  path_name_from EmptyString path.

(** A glob pattern for one path component, item by item: [*] stands for
    any string, [?] for any character, and every other character for
    itself. *)
Inductive glob_item : Type :=
| glob_star
| glob_any
| glob_char (c : ascii).

(** The items of a pattern.  [None] is for the patterns left out: those
    with a character class, and those with two stars in a row, which
    [Path.glob] refuses inside a component. *)
Fixpoint glob_items (pattern : string) : option (list glob_item) :=
  match pattern with
  | EmptyString => Some []
  | String c rest =>
      if ascii_dec c "[" then None
      else
        match glob_items rest with
        | None => None
        | Some items =>
            if ascii_dec c "*" then
              match items with
              | glob_star :: _ => None
              | _ => Some (glob_star :: items)
              end
            else if ascii_dec c "?" then Some (glob_any :: items)
            else Some (glob_char c :: items)
        end
  end.

(** The whole of [name] matches the items, as [fnmatch] has it on a
    file system that tells upper case from lower case. *)
Fixpoint items_match (items : list glob_item) : string → bool :=
  match items with
  | [] => Str.is_empty
  | glob_star :: rest =>
      fix star (name : string) : bool :=
        items_match rest name
        || match name with
           | EmptyString => false
           | String _ name' => star name'
           end
  | glob_any :: rest => λ name,
      match name with
      | EmptyString => false
      | String _ name' => items_match rest name'
      end
  | glob_char c :: rest => λ name,
      match name with
      | EmptyString => false
      | String c' name' =>
          if ascii_dec c c' then items_match rest name' else false
      end
  end.

(** [path.glob(pattern)] yields the file called [name]. *)
Definition glob_match (pattern name : string) : option bool :=
  match glob_items pattern with
  | None => None
  | Some items => Some (items_match items name)
  end.

(** ** Vocabulary for the properties of the loaders *)

(** What accumulating [mask] under a key in lower case makes of a dict:
    a new entry, or the clamped sum with the entry there is. *)
Definition accumulate {rows cols : nat} (d : gmap string (Tensor rows cols))
    (item : string * Tensor rows cols) : gmap string (Tensor rows cols) :=
  match d !! item.1 with
  | None => <[item.1 := item.2]> d
  | Some old => <[item.1 := clamp 0 1 (tensor_add old item.2)]> d
  end.

(** The files of a loader, each under the label [_add_mask] files it
    under. *)
Definition labelled {rows cols : nat} (simplify80 : bool)
    (word_of : string → string) (files : list (string * Tensor rows cols))
    : list (string * Tensor rows cols) :=
  (λ file, (coarsen simplify80 (word_of file.1), file.2)) <$> files.

(** Every mask of a dict lies in the interval from 0 to 1. *)
Definition masks_in_unit {rows cols : nat}
    (d : gmap string (Tensor rows cols)) : Prop :=
  ∀ k t, d !! k = Some t → in_unit t.

(** The masks filed under [label], in the order of the files. *)
Definition masks_of {rows cols : nat} (label : string)
    (items : list (string * Tensor rows cols)) : list (Tensor rows cols) :=
  (filter (λ item, item.1 = label) items).*2.

(** ** [daam/experiment.py]: the composite image *)

(** [UNUSED_LABELS]: [f'__unused_{i}__'] for [i] from 1 to 199. *)
Definition UNUSED_LABELS : list string :=
  (λ i : nat, "__unused_" +:+ pretty i +:+ "__") <$> seq 1 199.

(** [if vocab is None: vocab = UNUSED_LABELS] *)
Definition vocab_or_default (vocab : option (list string)) : list string :=
  match vocab with
  | None => UNUSED_LABELS
  | Some vocab => vocab
  end.

(** What ends the composite branch of [_load_pred_masks] early:
    [vocab[mask_idx]] raises [IndexError] for an index past the end of
    the vocabulary, and [_add_mask] may raise. *)
Inductive load_failure : Type :=
| IndexError (mask_idx : nat)
| Raised (e : exn).

Section composite.
Context {rows cols : nat}.

(** The values of the image, [np.array(im)] read row by row; they are
    indices into the vocabulary, taken to be unsigned. *)
Definition pixels (im : vec (vec nat cols) rows) : list nat :=
  concat (vec_to_list <$> vec_to_list im).

(** [np.unique(im)]: the values of the image, each once, in increasing
    order. *)
Definition np_unique (im : vec (vec nat cols) rows) : list nat :=
  merge_sort le (remove_dups (pixels im)).

(** [(im == mask_idx).astype(np.float32)] *)
Definition indicator (im : vec (vec nat cols) rows) (mask_idx : nat)
    : Tensor rows cols :=
  vmap (vmap (λ value, if decide (value = mask_idx) then 1%f32 else 0%f32)) im.

(** [for mask_idx in np.unique(im): ...]; [None] as outcome: the loop
    ran to its end. *)
Fixpoint for_values (masks : dref) (im : vec (vec nat cols) rows)
    (vocab : list string) (values : list nat) (simplify80 : bool)
    (σ : gmap dref (gmap string (Tensor rows cols)))
    : option (option load_failure * gmap dref (gmap string (Tensor rows cols))) :=
  match values with
  | [] => Some (None, σ)
  | mask_idx :: rest =>
      match vocab !! mask_idx with
      | None => Some (Some (IndexError mask_idx), σ)
      | Some label =>
          match _add_mask masks label (indicator im mask_idx) simplify80 σ with
          | None => None
          | Some (Raise e, σ') => Some (Some (Raised e), σ')
          | Some (Return _, σ') => for_values masks im vocab rest simplify80 σ'
          end
      end
  end.

(** [GenerationExperiment._load_pred_masks] with [composite=True], on
    the image read from the composite file. *)
Definition _load_pred_masks_composite (im : vec (vec nat cols) rows)
    (vocab : option (list string)) (simplify80 : bool)
    (σ : gmap dref (gmap string (Tensor rows cols)))
    : option ((dref + load_failure)
              * gmap dref (gmap string (Tensor rows cols))) :=
  let masks := fresh (dom σ) in
  let vocab := vocab_or_default vocab in
  match for_values masks im vocab (np_unique im) simplify80 (<[masks := ∅]> σ) with
  | None => None
  | Some (None, σ') => Some (inl masks, σ')
  | Some (Some failure, σ') => Some (inr failure, σ')
  end.

(** The masks the composite branch accumulates for the values [values],
    each under its label. *)
Definition composite_items (im : vec (vec nat cols) rows)
    (vocab : list string) (simplify80 : bool) (values : list nat)
    : list (string * Tensor rows cols) :=
  (λ value, (coarsen simplify80 (default EmptyString (vocab !! value)),
             indicator im value)) <$> values.
End composite.

(** At the pixel of row [i] and column [j], every mask of [d] is 0. *)
Definition zero_at {rows cols : nat} (i : fin rows) (j : fin cols)
    (d : gmap string (Tensor rows cols)) : Prop :=
  ∀ k t, d !! k = Some t → (t !!! i) !!! j = 0%f32.

(** At the pixel of row [i] and column [j], the mask of [label] is 1 and
    every other mask of [d] is 0. *)
Definition owned_at {rows cols : nat} (i : fin rows) (j : fin cols)
    (d : gmap string (Tensor rows cols)) (label : string) : Prop :=
  (∃ t, d !! label = Some t ∧ (t !!! i) !!! j = 1%f32)
  ∧ ∀ k t, k ≠ label → d !! k = Some t → (t !!! i) !!! j = 0%f32.

(** Every entry of [t] is 0 or 1. *)
Definition binary {rows cols : nat} (t : Tensor rows cols) : Prop :=
  tensor_all (λ q, q = 0%f32 ∨ q = 1%f32) t.

(** Every mask of a dict is binary. *)
Definition masks_binary {rows cols : nat}
    (d : gmap string (Tensor rows cols)) : Prop :=
  ∀ k t, d !! k = Some t → binary t.

(** [load]: the ground-truth masks are loaded, then the predicted masks
    of the files of a prefix; the two dict objects are returned. *)
Definition load_masks {rows cols : nat}
    (truth_files : list (string * Tensor rows cols)) (pred_prefix : string)
    (pred_files : list (string * Tensor rows cols)) (simplify80 : bool)
    : Py (dref * dref) :=
  do truth_masks ← _load_truth_masks truth_files simplify80 then
  do prediction_masks ← _load_pred_masks_files pred_prefix pred_files simplify80 then
  py_ret (truth_masks, prediction_masks).

(** * Properties of the mask accumulator *)

(** ** Single-precision numbers *)

(** The constants are numbers a tensor can hold, [1] is the one of the
    Standard Library, and they add up as their names say, without
    rounding. *)
Lemma f32_constants :
  Forall (λ x, valid_binary 24 128 x = true)
    [0%f32; f32_quarter; f32_half; f32_three_quarters; 1%f32; 2%f32]
  ∧ 1%f32 = SFone 24 128
  ∧ f32_add f32_quarter f32_quarter = f32_half
  ∧ f32_add f32_half f32_quarter = f32_three_quarters
  ∧ f32_add f32_half f32_half = 1%f32
  ∧ f32_add 1 1 = 2%f32.
Proof. repeat split; repeat constructor. Qed.

Lemma f32_compare_antisym (x y : f32) (c : comparison) :
  f32_compare x y = Some c → f32_compare y x = Some (CompOpp c).
Proof.
  unfold f32_compare.
  destruct x as [sx|sx| |sx mx ex], y as [sy|sy| |sy my ey];
    cbn -[Z.compare Pos.compare_cont]; try done;
    try (by destruct sx; intros [= <-]);
    try (by destruct sy; intros [= <-]);
    try (by destruct sx, sy; intros [= <-]).
  rewrite (Z.compare_antisym ex ey).
  assert (Pos.compare_cont Eq my mx = CompOpp (Pos.compare_cont Eq mx my))
    as -> by (symmetry; apply (Pos.compare_cont_antisym mx my Eq)).
  intros [= <-]. f_equal.
  destruct sx, sy; try done;
    by destruct (ex ?= ey)%Z, (Pos.compare_cont Eq mx my).
Qed.

Lemma f32_compare_nan (x y : f32) :
  f32_compare x y = None ↔ x = S754_nan ∨ y = S754_nan.
Proof.
  unfold f32_compare.
  destruct x as [sx|sx| |sx mx ex], y as [sy|sy| |sy my ey]; cbn;
    try (by split; [|intros [|]]); try (split; [auto|done]).
Qed.

(** What clamping to the interval from 0 to 1 makes of a number, stated
    with the comparisons of the Standard Library. *)
Lemma clamp_elem_cases (x : f32) :
  (SFltb x 0%f32 = true → clamp_elem 0 1 x = 0%f32)
  ∧ (SFltb 1%f32 x = true → clamp_elem 0 1 x = 1%f32)
  ∧ (SFltb x 0%f32 = false → SFltb 1%f32 x = false → clamp_elem 0 1 x = x).
Proof.
  unfold clamp_elem, SFltb. fold (f32_compare x 0) (f32_compare 1 x).
  split; [|split].
  - destruct (f32_compare x 0) as [[]|]; try done.
  - destruct (f32_compare 1 x) as [[]|] eqn:Hx; try done. intros _.
    apply f32_compare_antisym in Hx. change (CompOpp Lt) with Gt in Hx.
    assert (f32_compare x 0 ≠ Some Lt) as Hlo.
    { destruct x as [sx|[]| |[] mx ex]; done. }
    destruct (f32_compare x 0) as [[]|]; try done; by rewrite Hx.
  - intros Hlo Hhi.
    assert (f32_compare x 1 ≠ Some Gt) as Hgt.
    { intros Hx. apply f32_compare_antisym in Hx.
      change (CompOpp Gt) with Lt in Hx. by rewrite Hx in Hhi. }
    destruct (f32_compare x 0) as [[]|]; try done;
      by destruct (f32_compare x 1) as [[]|].
Qed.

Lemma clamp_elem_nan (x : f32) : clamp_elem 0 1 x = S754_nan ↔ x = S754_nan.
Proof.
  split; [|by intros ->].
  unfold clamp_elem.
  destruct (f32_compare x 0) as [[]|]; try done;
    by destruct (f32_compare x 1) as [[]|].
Qed.

Lemma clamp_elem_unit (x : f32) :
  x ≠ S754_nan → unit_interval (clamp_elem 0 1 x).
Proof.
  intros Hx. unfold clamp_elem, unit_interval, f32_le, f32_compare, SFleb.
  destruct x as [s|[]| |[] m e]; try done.
  cbn -[Z.compare Pos.compare_cont].
  destruct (e ?= -23)%Z eqn:He; cbn -[Z.compare Pos.compare_cont];
    rewrite ?He; try done.
  destruct (Pos.compare_cont Eq m 8388608) eqn:Hm;
    cbn -[Z.compare Pos.compare_cont]; rewrite ?He, ?Hm; done.
Qed.

Lemma clamp_elem_id (x : f32) : unit_interval x → clamp_elem 0 1 x = x.
Proof.
  unfold clamp_elem, unit_interval, f32_le, f32_compare, SFleb.
  intros [Hlo Hhi].
  destruct x as [s|[]| |[] m e]; try done.
  revert Hhi. cbn -[Z.compare Pos.compare_cont].
  destruct (e ?= -23)%Z eqn:He; try done.
  by destruct (Pos.compare_cont Eq m 8388608) eqn:Hm.
Qed.

(** Rounding a mantissa that is not negative never gives NaN. *)
Lemma shr_1_nonneg (mrs : shr_record) :
  (0 ≤ shr_m mrs)%Z → (0 ≤ shr_m (shr_1 mrs))%Z.
Proof. destruct mrs as [[|[p|p|]|[p|p|]] r s]; cbn; lia. Qed.

Lemma iter_shr_1_nonneg (p : positive) : ∀ mrs,
  (0 ≤ shr_m mrs)%Z → (0 ≤ shr_m (SpecFloat.iter_pos shr_1 p mrs))%Z.
Proof.
  induction p as [p IH|p IH|]; intros mrs H; cbn.
  - apply IH, IH, shr_1_nonneg, H.
  - apply IH, IH, H.
  - apply shr_1_nonneg, H.
Qed.

Lemma shr_fexp_nonneg (prec emax m e : Z) (l : location) :
  (0 ≤ m)%Z → (0 ≤ shr_m (shr_fexp prec emax m e l).1)%Z.
Proof.
  intros Hm. unfold shr_fexp, shr.
  assert (0 ≤ shr_m (shr_record_of_loc m l))%Z as H0.
  { by destruct l as [|[]]. }
  destruct (fexp prec emax (Zdigits2 m + e) - e)%Z; cbn [fst]; try done.
  by apply iter_shr_1_nonneg.
Qed.

Lemma round_nearest_even_nonneg (m : Z) (l : location) :
  (0 ≤ m)%Z → (0 ≤ round_nearest_even m l)%Z.
Proof.
  intros Hm. destruct l as [|[]]; cbn; try done; [|lia].
  destruct (Z.even m); lia.
Qed.

Lemma binary_round_aux_not_nan (prec emax : Z) (sx : bool) (mx ex : Z)
    (lx : location) :
  (0 ≤ mx)%Z → binary_round_aux prec emax sx mx ex lx ≠ S754_nan.
Proof.
  intros Hm. unfold binary_round_aux.
  pose proof (shr_fexp_nonneg prec emax mx ex lx Hm) as H1.
  destruct (shr_fexp prec emax mx ex lx) as [mrs' e']. cbn [fst] in H1.
  pose proof (shr_fexp_nonneg prec emax _ e' loc_Exact
    (round_nearest_even_nonneg _ (loc_of_shr_record mrs') H1)) as H2.
  destruct (shr_fexp prec emax _ e' loc_Exact) as [mrs'' e'']. cbn [fst] in H2.
  destruct (shr_m mrs'') as [|m|m]; [done| |lia].
  by destruct (e'' <=? emax - prec)%Z.
Qed.

Lemma binary_normalize_not_nan (prec emax m e : Z) (sz : bool) :
  binary_normalize prec emax m e sz ≠ S754_nan.
Proof.
  destruct m as [|m|m]; cbn; [done| |];
    unfold binary_round;
    destruct (shl_align _ _ _) as [mz ez];
    by apply binary_round_aux_not_nan.
Qed.

(** A sum is NaN only where IEEE 754 says so. *)
Lemma f32_add_nan (x y : f32) : f32_add x y = S754_nan ↔ nan_sum x y.
Proof.
  unfold f32_add, nan_sum. split.
  - destruct x as [sx|sx| |sx mx ex], y as [sy|sy| |sy my ey];
      cbn -[binary_normalize];
      try (by auto); try (by destruct sx, sy; eauto).
    intros H. by apply binary_normalize_not_nan in H.
  - intros [->|[->|(sign & -> & ->)]]; [done|by destruct x|by destruct sign].
Qed.

Lemma f32_add_comm (x y : f32) : f32_add x y = f32_add y x.
Proof.
  unfold f32_add.
  destruct x as [sx|sx| |sx mx ex], y as [sy|sy| |sy my ey];
    cbn -[binary_normalize];
    try done; try (by destruct sx, sy).
  by rewrite Z.add_comm, (Z.min_comm ey ex).
Qed.

Lemma unit_interval_not_nan_sum (x y : f32) :
  unit_interval x → unit_interval y → ¬ nan_sum x y.
Proof.
  unfold unit_interval, f32_le.
  intros [Hx0 Hx1] [Hy0 Hy1] [->|[->|(sign & -> & ->)]]; try done.
  by destruct sign.
Qed.

(** The clamped sum of two numbers of the interval lies in it. *)
Lemma clamp_add_unit (x y : f32) :
  unit_interval x → unit_interval y →
  unit_interval (clamp_elem 0 1 (f32_add x y)).
Proof.
  intros Hx Hy. apply clamp_elem_unit. rewrite f32_add_nan.
  by apply unit_interval_not_nan_sum.
Qed.

Lemma zero_unit : unit_interval 0.
Proof. by split. Qed.

Lemma one_unit : unit_interval 1.
Proof. by split. Qed.

Lemma two_not_unit : ¬ unit_interval 2.
Proof. by intros [_ H]. Qed.

Lemma nan_not_unit : ¬ unit_interval S754_nan.
Proof. by intros [H _]. Qed.

(** ** Entries of a tensor *)

Section tensor_facts.
Context {rows cols : nat}.
Implicit Types a b t : Tensor rows cols.

Lemma tensor_add_lookup a b i j :
  (tensor_add a b !!! i) !!! j = f32_add ((a !!! i) !!! j) ((b !!! i) !!! j).
Proof. unfold tensor_add. by rewrite !vlookup_zip_with. Qed.

Lemma clamp_lookup lo hi t i j :
  (clamp lo hi t !!! i) !!! j = clamp_elem lo hi ((t !!! i) !!! j).
Proof. unfold clamp. by rewrite !vlookup_map. Qed.

Lemma tensor_ext a b :
  (∀ i j, (a !!! i) !!! j = (b !!! i) !!! j) → a = b.
Proof. intros E. apply vec_eq. intros i. apply vec_eq. intros j. apply E. Qed.

Lemma tensor_add_comm a b : tensor_add a b = tensor_add b a.
Proof.
  apply tensor_ext. intros i j.
  rewrite !tensor_add_lookup. apply f32_add_comm.
Qed.

Lemma clamp_add_in_unit a b :
  in_unit a → in_unit b → in_unit (clamp 0 1 (tensor_add a b)).
Proof.
  intros Ha Hb i j. rewrite clamp_lookup, tensor_add_lookup.
  apply clamp_add_unit; [apply Ha|apply Hb].
Qed.

Lemma clamp_of_in_unit t : in_unit t → clamp 0 1 t = t.
Proof.
  intros Ht. apply tensor_ext. intros i j.
  rewrite clamp_lookup. apply clamp_elem_id, Ht.
Qed.
End tensor_facts.

(** ** What one call does *)

Section add_mask_facts.
Context {rows cols : nat}.
Implicit Types σ : gmap dref (gmap string (Tensor rows cols)).
Implicit Types d : gmap string (Tensor rows cols).
Implicit Types mask old : Tensor rows cols.

(** The run of [_add_mask] on a store that holds the dict [d] under
    [masks], branch by branch. *)
Lemma add_mask_run masks word mask s σ d :
  σ !! masks = Some d →
  _add_mask masks word mask s σ =
    match d !! coarsen s word with
    | None =>
        Some (Return masks, <[masks := <[coarsen s word := mask]> d]> σ)
    | Some _ =>
        match d !! Str.lower (coarsen s word) with
        | None => Some (Raise (KeyError (Str.lower (coarsen s word))), σ)
        | Some old =>
            Some (Return masks,
                  <[masks := <[coarsen s word :=
                                 clamp 0 1 (tensor_add old mask)]> d]> σ)
        end
    end.
Proof.
  intros Hd.
  unfold _add_mask, dict_clamp_item, py_bind, dict_contains, dict_getitem,
    dict_setitem, py_ret.
  rewrite Hd.
  destruct (d !! coarsen s word) as [t|] eqn:Hw.
  - rewrite bool_decide_eq_true_2 by eauto.
    cbv beta iota. rewrite Hd.
    destruct (d !! Str.lower (coarsen s word)) as [old|]; [|done].
    cbv beta iota. rewrite Hd.
    cbv beta iota. rewrite !lookup_insert_eq.
    by rewrite !insert_insert_eq.
  - rewrite bool_decide_eq_false_2 by (by intros [? ?]).
    cbv beta iota. by rewrite Hd.
Qed.

(** A call on a dangling reference is no run at all. *)
Lemma add_mask_dangling masks word mask s σ :
  σ !! masks = None → _add_mask masks word mask s σ = None.
Proof.
  intros Hd. unfold _add_mask, py_bind, dict_contains. by rewrite Hd.
Qed.
End add_mask_facts.

(** ** Concrete inputs *)

Lemma pixel_in_unit (q : f32) : in_unit (pixel q) ↔ unit_interval q.
Proof.
  split.
  - intros Hq. exact (Hq 0%fin 0%fin).
  - intros Hq i j. inv_fin i; [|intros i; inv_fin i].
    inv_fin j; [|intros j; inv_fin j]. exact Hq.
Qed.

Lemma pixel_inj (p q : f32) : pixel p = pixel q → p = q.
Proof. intros E. by injection E. Qed.

Lemma pixel_clamp_add (p q : f32) :
  clamp 0 1 (tensor_add (pixel p) (pixel q)) = pixel (clamp_elem 0 1 (f32_add p q)).
Proof. reflexivity. Qed.

Lemma pixel_ext (t : Tensor 1 1) (q : f32) :
  (t !!! 0%fin) !!! 0%fin = q → t = pixel q.
Proof.
  intros Hq. apply tensor_ext. intros i j.
  inv_fin i; [|intros i; inv_fin i]. inv_fin j; [|intros j; inv_fin j].
  exact Hq.
Qed.

Lemma one_dict_lookup d : one_dict d !! 1%positive = Some d.
Proof. apply lookup_singleton_eq. Qed.

Lemma one_dict_insert d d' : <[1%positive := d']> (one_dict d) = one_dict d'.
Proof. apply insert_singleton_eq. Qed.

Lemma coarsen_car : coarsen true "car" = "vehicle".
Proof. vm_compute. reflexivity. Qed.

Lemma coarsen_bus : coarsen true "bus" = "vehicle".
Proof. vm_compute. reflexivity. Qed.

(** ** The claims on [_add_mask] *)

Section add_mask_claims.
Context {rows cols : nat}.
Implicit Types σ : gmap dref (gmap string (Tensor rows cols)).
Implicit Types d : gmap string (Tensor rows cols).
Implicit Types mask old a b : Tensor rows cols.

(** The merge path: the label, remapped if asked, is a key of the map,
    and so is its lower-cased form, whose mask is the one that is summed
    with the new mask. *)
Lemma add_mask_merge_at masks word mask s σ d cur old :
  σ !! masks = Some d →
  d !! coarsen s word = Some cur →
  d !! Str.lower (coarsen s word) = Some old →
  _add_mask masks word mask s σ =
    Some (Return masks,
          <[masks := <[coarsen s word := clamp 0 1 (tensor_add old mask)]> d]> σ).
Proof.
  intros Hd Hw Hlow. rewrite (add_mask_run _ _ _ _ _ _ Hd).
  by rewrite Hw, Hlow.
Qed.

(** A label that is no key of the map as it is spelled is inserted with
    the mask as given, whatever other keys the map has. *)
Lemma add_mask_insert masks word mask s σ d :
  σ !! masks = Some d →
  d !! coarsen s word = None →
  _add_mask masks word mask s σ =
    Some (Return masks, <[masks := <[coarsen s word := mask]> d]> σ).
Proof.
  intros Hd Hw. rewrite (add_mask_run _ _ _ _ _ _ Hd). by rewrite Hw.
Qed.

(** C4, as amended.  A mask inserted for a new label is stored as it is
    given, in range or not.  A mask written by a merge lies, entry by
    entry, in the interval from 0 to 1 or is NaN, and it is NaN exactly
    where the sum is: where one of the two masks is NaN or they are
    infinities of opposite signs.  So every mask of the map lies in the
    interval after the call provided the masks already stored and the new
    mask do. *)
Theorem add_mask_unit_interval masks word mask s σ d r σ' :
  σ !! masks = Some d →
  _add_mask masks word mask s σ = Some (r, σ') →
  ∃ d', σ' !! masks = Some d' ∧
    (d !! coarsen s word = None → d' !! coarsen s word = Some mask) ∧
    (is_Some (d !! coarsen s word) → r = Return masks →
       ∃ old t,
         d !! Str.lower (coarsen s word) = Some old ∧
         d' !! coarsen s word = Some t ∧
         ∀ i j,
           ((t !!! i) !!! j = S754_nan ∨ unit_interval ((t !!! i) !!! j))
           ∧ ((t !!! i) !!! j = S754_nan ↔
              nan_sum ((old !!! i) !!! j) ((mask !!! i) !!! j))) ∧
    (in_unit mask → masks_in_unit d → masks_in_unit d').
Proof.
  intros Hd Hrun. rewrite (add_mask_run _ _ _ _ _ _ Hd) in Hrun.
  destruct (d !! coarsen s word) as [cur|] eqn:Hw.
  - destruct (d !! Str.lower (coarsen s word)) as [old|] eqn:Hl.
    + injection Hrun as <- <-. eexists. split; [apply lookup_insert_eq|].
      split; [done|]. split.
      * intros _ _. exists old. eexists. split; [done|].
        split; [apply lookup_insert_eq|].
        intros i j. rewrite !clamp_lookup, !tensor_add_lookup. split.
        -- destruct (f32_add ((old !!! i) !!! j) ((mask !!! i) !!! j))
             as [sign|sign| |sign m e];
             [right|right|by left|right]; by apply clamp_elem_unit.
        -- by rewrite clamp_elem_nan, f32_add_nan.
      * intros Hm Hall k t.
        destruct (decide (k = coarsen s word)) as [->|Hne].
        -- rewrite lookup_insert_eq. intros [= <-].
           apply clamp_add_in_unit; [|done]. by apply (Hall _ _ Hl).
        -- rewrite lookup_insert_ne by done. apply Hall.
    + injection Hrun as <- <-. exists d. split; [done|]. split; [done|]. split.
      * intros _ [=].
      * intros _ Hall. exact Hall.
  - injection Hrun as <- <-. eexists. split; [apply lookup_insert_eq|].
    split; [intros _; apply lookup_insert_eq|]. split.
    + by intros [? ?].
    + intros Hm Hall k t.
      destruct (decide (k = coarsen s word)) as [->|Hne].
      * rewrite lookup_insert_eq. by intros [= <-].
      * rewrite lookup_insert_ne by done. apply Hall.
Qed.

(** C5, as amended.  When the label, remapped if asked, is a key of the
    map as it is spelled and is in lower case, the call replaces its
    entry by the sum of the stored mask and the new one in single
    precision, clamped to the interval from 0 to 1: entry by entry, 0
    where the sum is below 0, 1 where it is above 1, and the sum itself
    everywhere else, NaN included.  A label that is no key of the map as
    it is spelled is inserted as a new entry with the mask as given,
    whatever other keys the map holds. *)
Theorem add_mask_merge masks word mask s σ d :
  σ !! masks = Some d →
  (∀ old,
     d !! coarsen s word = Some old →
     Str.lower (coarsen s word) = coarsen s word →
     ∃ t,
       _add_mask masks word mask s σ =
         Some (Return masks, <[masks := <[coarsen s word := t]> d]> σ)
       ∧ ∀ i j,
           let sum := SFadd 24 128 ((old !!! i) !!! j) ((mask !!! i) !!! j) in
           (SFltb sum 0%f32 = true → (t !!! i) !!! j = 0%f32)
           ∧ (SFltb 1%f32 sum = true → (t !!! i) !!! j = 1%f32)
           ∧ (SFltb sum 0%f32 = false → SFltb 1%f32 sum = false →
              (t !!! i) !!! j = sum))
  ∧ (d !! coarsen s word = None →
     _add_mask masks word mask s σ =
       Some (Return masks, <[masks := <[coarsen s word := mask]> d]> σ)).
Proof.
  intros Hd. split.
  - intros old Hw Hlow. exists (clamp 0 1 (tensor_add old mask)). split.
    + apply (add_mask_merge_at _ _ _ _ _ _ old old Hd Hw). by rewrite Hlow.
    + intros i j. cbv zeta. rewrite !clamp_lookup, !tensor_add_lookup.
      apply (clamp_elem_cases (f32_add ((old !!! i) !!! j) ((mask !!! i) !!! j))).
  - by apply add_mask_insert.
Qed.

(** For a label that, remapped if asked, is in lower case and is not
    yet a key, accumulating [a] then [b] leaves the same store as
    accumulating [b] then [a]: the sum of two numbers in single precision
    does not depend on their order. *)
Lemma add_mask_comm masks word a b s σ d :
  σ !! masks = Some d →
  d !! coarsen s word = None →
  Str.lower (coarsen s word) = coarsen s word →
  add_mask_twice masks word a word b s σ =
    add_mask_twice masks word b word a s σ.
Proof.
  intros Hd Hw Hlow.
  assert (∀ x y, add_mask_twice masks word x word y s σ =
    Some (Return masks,
          <[masks := <[coarsen s word := clamp 0 1 (tensor_add x y)]> d]> σ))
    as Hrun.
  { intros x y. unfold add_mask_twice, py_bind.
    rewrite (add_mask_insert _ _ _ _ _ _ Hd Hw).
    erewrite add_mask_merge_at;
      [|apply lookup_insert_eq|apply lookup_insert_eq
       |rewrite Hlow; apply lookup_insert_eq].
    by rewrite !insert_insert_eq. }
  rewrite !Hrun. by rewrite (tensor_add_comm a b).
Qed.

(** C7.  From an empty map, a mask accumulated under "car" and one under
    "bus", both with [simplify80], leave a map whose only entry is
    "vehicle".  Its mask is the sum of the two masks in single precision,
    clamped to the interval from 0 to 1: entry by entry, 0 where the sum
    is below 0, 1 where it is above 1, and the sum itself everywhere
    else. *)
Theorem add_mask_car_bus masks a b σ :
  σ !! masks = Some ∅ →
  ∃ t,
    add_mask_twice masks "car" a "bus" b true σ =
      Some (Return masks, <[masks := {["vehicle" := t]}]> σ)
    ∧ ∀ i j,
        let sum := SFadd 24 128 ((a !!! i) !!! j) ((b !!! i) !!! j) in
        (SFltb sum 0%f32 = true → (t !!! i) !!! j = 0%f32)
        ∧ (SFltb 1%f32 sum = true → (t !!! i) !!! j = 1%f32)
        ∧ (SFltb sum 0%f32 = false → SFltb 1%f32 sum = false →
           (t !!! i) !!! j = sum).
Proof.
  intros Hd. exists (clamp 0 1 (tensor_add a b)). split.
  - unfold add_mask_twice, py_bind.
    rewrite (add_mask_insert _ _ _ _ _ _ Hd) by (rewrite coarsen_car; done).
    erewrite add_mask_merge_at; [|apply lookup_insert_eq| |].
    + rewrite coarsen_car, coarsen_bus.
      by rewrite !insert_insert_eq, insert_empty.
    + rewrite coarsen_car, coarsen_bus. apply lookup_insert_eq.
    + rewrite coarsen_car, coarsen_bus. apply lookup_insert_eq.
  - intros i j. cbv zeta. rewrite !clamp_lookup, !tensor_add_lookup.
    apply (clamp_elem_cases (f32_add ((a !!! i) !!! j) ((b !!! i) !!! j))).
Qed.

(** A call that returns gives back the dict object it was given and
    changes no entry but the one of the label, remapped if asked; no
    other dict object changes. *)
Lemma add_mask_frame masks word mask s σ d σ' r :
  σ !! masks = Some d →
  _add_mask masks word mask s σ = Some (Return r, σ') →
  r = masks
  ∧ (∀ m, m ≠ masks → σ' !! m = σ !! m)
  ∧ ∃ d', σ' !! masks = Some d'
      ∧ ∀ k, k ≠ coarsen s word → d' !! k = d !! k.
Proof.
  intros Hd. rewrite (add_mask_run _ _ _ _ _ _ Hd).
  destruct (d !! coarsen s word) as [cur|] eqn:Hw.
  - destruct (d !! Str.lower (coarsen s word)) as [old|] eqn:Hl; [|done].
    intros [= <- <-]. split; [done|]. split.
    { intros m Hm. by rewrite lookup_insert_ne. }
    eexists. split; [apply lookup_insert_eq|].
    intros k Hk. by rewrite lookup_insert_ne.
  - intros [= <- <-]. split; [done|]. split.
    { intros m Hm. by rewrite lookup_insert_ne. }
    eexists. split; [apply lookup_insert_eq|].
    intros k Hk. by rewrite lookup_insert_ne.
Qed.

(** Under the precondition that every key of the map is in lower case,
    every call returns. *)
Lemma add_mask_returns masks word mask s σ d :
  σ !! masks = Some d →
  lower_keys d →
  ∃ σ', _add_mask masks word mask s σ = Some (Return masks, σ').
Proof.
  intros Hd Hkeys. rewrite (add_mask_run _ _ _ _ _ _ Hd).
  destruct (d !! coarsen s word) as [cur|] eqn:Hw; [|by eexists].
  rewrite (Hkeys (coarsen s word)) by eauto.
  rewrite Hw. by eexists.
Qed.
End add_mask_claims.

(** ** Concrete runs *)

(** C4: a mask with an entry 2, accumulated for a new label, is stored
    as it is, so the map holds a value outside the interval from 0 to 1
    after the call; and a NaN merged into a stored 0 is written as NaN,
    which clamping leaves in place. *)
Lemma add_mask_stores_out_of_range :
  (_add_mask 1%positive "cat" (pixel 2) false (one_dict ∅) =
     Some (Return 1%positive, one_dict {["cat" := pixel 2]})
   ∧ ¬ in_unit (pixel 2))
  ∧ (_add_mask 1%positive "cat" (pixel S754_nan) false
       (one_dict {["cat" := pixel 0]}) =
     Some (Return 1%positive, one_dict {["cat" := pixel S754_nan]})
   ∧ ¬ in_unit (pixel S754_nan)).
Proof.
  split; split.
  - rewrite (add_mask_insert _ _ _ _ _ ∅) by apply one_dict_lookup || done.
    by rewrite one_dict_insert, insert_empty.
  - rewrite pixel_in_unit. apply two_not_unit.
  - erewrite add_mask_merge_at;
      [|apply one_dict_lookup|apply lookup_singleton_eq
       |apply lookup_singleton_eq].
    by rewrite one_dict_insert, insert_singleton_eq.
  - rewrite pixel_in_unit. apply nan_not_unit.
Qed.

(** Witness of C4: a second mask of ones merged into a map that holds a
    mask of ones; the sum 2 is clamped to 1. *)
Lemma add_mask_unit_interval_witness :
  one_dict {["cat" := pixel 1]} !! 1%positive = Some {["cat" := pixel 1]}
  ∧ _add_mask 1%positive "cat" (pixel 1) false (one_dict {["cat" := pixel 1]}) =
      Some (Return 1%positive, one_dict {["cat" := pixel 1]})
  ∧ ∃ d', one_dict {["cat" := pixel 1]} !! 1%positive = Some d'
          ∧ masks_in_unit d'.
Proof.
  assert (_add_mask 1%positive "cat" (pixel 1) false
            (one_dict {["cat" := pixel 1]}) =
          Some (Return 1%positive, one_dict {["cat" := pixel 1]}))
    as Hrun.
  { erewrite add_mask_merge_at;
      [|apply one_dict_lookup|apply lookup_singleton_eq
       |apply lookup_singleton_eq].
    by rewrite one_dict_insert, insert_singleton_eq. }
  split; [apply one_dict_lookup|]. split; [exact Hrun|].
  destruct (add_mask_unit_interval 1%positive "cat" (pixel 1) false _ _ _ _
              (one_dict_lookup _) Hrun) as (d' & Hd' & _ & _ & Hall).
  exists d'. split; [exact Hd'|].
  apply Hall.
  - apply pixel_in_unit, one_unit.
  - intros k t Hk. apply lookup_singleton_Some in Hk as [_ <-].
    apply pixel_in_unit, one_unit.
Defined.

(** C5: the map holds "cat"; a mask accumulated under "Cat", which is
    "cat" after lower-casing, is not summed with it: the entry of "cat"
    is kept, and "Cat" becomes a second entry that holds the new mask,
    which is not the clamped sum. *)
Lemma add_mask_case_not_merged :
  Str.lower "Cat" = "cat"
  ∧ _add_mask 1%positive "Cat" (pixel f32_quarter) false
      (one_dict {["cat" := pixel f32_half]}) =
    Some (Return 1%positive,
          one_dict (<["Cat" := pixel f32_quarter]> {["cat" := pixel f32_half]}))
  ∧ clamp 0 1 (tensor_add (pixel f32_half) (pixel f32_quarter))
    = pixel f32_three_quarters
  ∧ pixel f32_quarter ≠ pixel f32_three_quarters.
Proof.
  split; [reflexivity|]. split; [|split; [reflexivity|done]].
  erewrite add_mask_insert; [|apply one_dict_lookup|].
  - by rewrite one_dict_insert.
  - apply lookup_singleton_ne. discriminate.
Qed.

(** Witness of C5: 1/4 merged into 1/2 under the lower-case key "cat"
    gives 3/4. *)
Lemma add_mask_merge_witness :
  one_dict {["cat" := pixel f32_half]} !! 1%positive
    = Some {["cat" := pixel f32_half]}
  ∧ ({["cat" := pixel f32_half]} : gmap string (Tensor 1 1))
      !! coarsen false "cat" = Some (pixel f32_half)
  ∧ Str.lower (coarsen false "cat") = coarsen false "cat"
  ∧ _add_mask 1%positive "cat" (pixel f32_quarter) false
      (one_dict {["cat" := pixel f32_half]}) =
    Some (Return 1%positive, one_dict {["cat" := pixel f32_three_quarters]}).
Proof.
  split; [apply one_dict_lookup|].
  split; [apply lookup_singleton_eq|].
  split; [reflexivity|].
  destruct (proj1 (add_mask_merge 1%positive "cat" (pixel f32_quarter) false
                     (one_dict {["cat" := pixel f32_half]})
                     {["cat" := pixel f32_half]} (one_dict_lookup _))
              (pixel f32_half) (lookup_singleton_eq _ _) eq_refl)
    as (t & Hrun & Ht).
  rewrite Hrun. destruct (Ht 0%fin 0%fin) as (_ & _ & Hsum).
  rewrite (pixel_ext t f32_three_quarters) by (by apply Hsum).
  change (coarsen false "cat") with "cat".
  by rewrite one_dict_insert, insert_singleton_eq.
Defined.

(** C6: the map holds "cat" with a zero mask and "Cat" is not a key.
    Accumulating 0 then 1 under "Cat" stores 1; accumulating 1 then 0
    stores 0: the second call reads the entry of "cat", not the one the
    first call wrote. *)
Lemma add_mask_order_matters :
  ({["cat" := pixel 0]} : gmap string (Tensor 1 1)) !! "Cat" = None
  ∧ add_mask_twice 1%positive "Cat" (pixel 0) "Cat" (pixel 1) false
      (one_dict {["cat" := pixel 0]}) =
    Some (Return 1%positive,
          one_dict (<["Cat" := pixel 1]> {["cat" := pixel 0]}))
  ∧ add_mask_twice 1%positive "Cat" (pixel 1) "Cat" (pixel 0) false
      (one_dict {["cat" := pixel 0]}) =
    Some (Return 1%positive,
          one_dict (<["Cat" := pixel 0]> {["cat" := pixel 0]}))
  ∧ pixel 1 ≠ pixel 0.
Proof.
  assert (∀ x y : f32,
    add_mask_twice 1%positive "Cat" (pixel x) "Cat" (pixel y) false
      (one_dict {["cat" := pixel 0]}) =
    Some (Return 1%positive,
          one_dict (<["Cat" := pixel (clamp_elem 0 1 (f32_add 0 y))]>
                      {["cat" := pixel 0]}))) as Hrun.
  { intros x y. unfold add_mask_twice, py_bind.
    erewrite add_mask_insert;
      [|apply one_dict_lookup|by apply lookup_singleton_ne].
    rewrite one_dict_insert.
    rewrite (add_mask_run _ _ _ _ _ _ (one_dict_lookup _)).
    change (coarsen false "Cat") with "Cat".
    change (Str.lower "Cat") with "cat".
    rewrite lookup_insert_eq.
    rewrite lookup_insert_ne by discriminate.
    rewrite lookup_singleton_eq.
    rewrite one_dict_insert, insert_insert_eq.
    by rewrite pixel_clamp_add. }
  split; [by apply lookup_singleton_ne|].
  split; [|split]; [by rewrite Hrun|by rewrite Hrun|done].
Qed.

(** Witness of C7: 1/4 under "bus" added to 1/2 under "car" gives 3/4
    under "vehicle", and 1 added to 1 gives 1. *)
Lemma add_mask_car_bus_witness :
  one_dict ∅ !! 1%positive = Some ∅
  ∧ add_mask_twice 1%positive "car" (pixel f32_half) "bus" (pixel f32_quarter)
      true (one_dict ∅) =
    Some (Return 1%positive, one_dict {["vehicle" := pixel f32_three_quarters]})
  ∧ add_mask_twice 1%positive "car" (pixel 1) "bus" (pixel 1) true (one_dict ∅) =
    Some (Return 1%positive, one_dict {["vehicle" := pixel 1]}).
Proof.
  split; [apply one_dict_lookup|]. split.
  - destruct (add_mask_car_bus 1%positive (pixel f32_half) (pixel f32_quarter)
                (one_dict ∅) (one_dict_lookup _)) as (t & Hrun & Ht).
    rewrite Hrun. destruct (Ht 0%fin 0%fin) as (_ & _ & Hsum).
    rewrite (pixel_ext t f32_three_quarters) by (by apply Hsum).
    by rewrite one_dict_insert.
  - destruct (add_mask_car_bus 1%positive (pixel 1) (pixel 1)
                (one_dict ∅) (one_dict_lookup _)) as (t & Hrun & Ht).
    rewrite Hrun. destruct (Ht 0%fin 0%fin) as (_ & Htop & _).
    rewrite (pixel_ext t 1) by (by apply Htop).
    by rewrite one_dict_insert.
Defined.

(** The run behind C9 and C10: the map holds the key "Cat" only, and a
    call for "Cat" looks up "cat". *)
Lemma add_mask_Cat (a b : f32) :
  _add_mask 1%positive "Cat" (pixel b) false (one_dict {["Cat" := pixel a]}) =
    Some (Raise (KeyError "cat"), one_dict {["Cat" := pixel a]}).
Proof.
  rewrite (add_mask_run _ _ _ _ _ _ (one_dict_lookup _)).
  change (coarsen false "Cat") with "Cat".
  change (Str.lower "Cat") with "cat".
  rewrite lookup_singleton_eq.
  by rewrite lookup_singleton_ne by discriminate.
Qed.

(** C10: the map holds the key "Cat", as a first call for "Cat" on an
    empty map leaves it; a second call for "Cat" raises [KeyError] for
    "cat" instead of returning the map, and leaves the store as it
    was. *)
Lemma add_mask_raises_key_error :
  _add_mask 1%positive "Cat" (pixel 1) false (one_dict ∅) =
    Some (Return 1%positive, one_dict {["Cat" := pixel 1]})
  ∧ _add_mask 1%positive "Cat" (pixel 1) false (one_dict {["Cat" := pixel 1]}) =
    Some (Raise (KeyError "cat"), one_dict {["Cat" := pixel 1]}).
Proof.
  split; [|apply add_mask_Cat].
  erewrite add_mask_insert; [|apply one_dict_lookup|done].
  by rewrite one_dict_insert, insert_empty.
Qed.

(** C9.  The merge path reads the entry of the lower-cased label.  From
    an empty map, a first call for "Cat" inserts the key "Cat" and a
    second call for "Cat" raises [KeyError] for "cat" instead of merging;
    when every key of the map is in lower case, no call raises. *)
Theorem add_mask_lower_case_precondition :
  (add_mask_twice 1%positive "Cat" (pixel 1) "Cat" (pixel 1) false (one_dict ∅) =
     Some (Raise (KeyError "cat"), one_dict {["Cat" := pixel 1]})
   ∧ ¬ lower_keys ({["Cat" := pixel 1]} : gmap string (Tensor 1 1)))
  ∧ ∀ rows cols masks word (mask : Tensor rows cols) s σ d,
      σ !! masks = Some d →
      lower_keys d →
      ∃ σ', _add_mask masks word mask s σ = Some (Return masks, σ').
Proof.
  split; [split|].
  - unfold add_mask_twice, py_bind.
    erewrite add_mask_insert; [|apply one_dict_lookup|done].
    rewrite one_dict_insert, insert_empty.
    change (coarsen false "Cat") with "Cat".
    apply add_mask_Cat.
  - intros Hkeys. specialize (Hkeys "Cat").
    rewrite lookup_singleton_eq in Hkeys.
    specialize (Hkeys (mk_is_Some _ _ eq_refl)). discriminate.
  - intros rows cols masks word mask s σ d. apply add_mask_returns.
Qed.

(** Witness of C9: a map with the lower-case key "cat". *)
Lemma add_mask_lower_case_precondition_witness :
  one_dict {["cat" := pixel 0]} !! 1%positive = Some {["cat" := pixel 0]}
  ∧ lower_keys ({["cat" := pixel 0]} : gmap string (Tensor 1 1))
  ∧ ∃ σ', _add_mask 1%positive "cat" (pixel 1) false
            (one_dict {["cat" := pixel 0]}) = Some (Return 1%positive, σ').
Proof.
  assert (lower_keys ({["cat" := pixel 0]} : gmap string (Tensor 1 1))) as Hkeys.
  { intros k [t Hk]. by apply lookup_singleton_Some in Hk as [<- _]. }
  split; [apply one_dict_lookup|]. split; [exact Hkeys|].
  apply (proj2 add_mask_lower_case_precondition 1%nat 1%nat 1%positive "cat"
           (pixel 1) false _ _ (one_dict_lookup _) Hkeys).
Defined.

(** ** The remapping table *)

Lemma coarsen_absent (word : string) :
  COCO80_TO_27 !! word = None → coarsen true word = word.
Proof. intros H. unfold coarsen, dict_get. by rewrite H. Qed.

(** C8.  There are 80 fine-grained and 27 coarse labels.  The remapping
    sends each of the 80 labels to one of the coarse labels: 79 of them
    are keys of the table, and "person", which is not, is kept and is a
    coarse label itself.  Every key of the table is one of the 80 labels.
    A label that is no key of the table is kept, and [_add_mask] treats
    it with [simplify80] as it does without. *)
Theorem coarsen_table :
  length COCO80_LABELS = 80%nat
  ∧ length COCOSTUFF27_LABELS = 27%nat
  ∧ Forall (λ l, coarsen true l ∈ COCOSTUFF27_LABELS) COCO80_LABELS
  ∧ Forall (λ kv, kv.1 ∈ COCO80_LABELS ∧ COCO80_TO_27 !! kv.1 = Some kv.2)
      COCO80_TO_27_items
  ∧ size COCO80_TO_27 = 79%nat
  ∧ COCO80_TO_27 !! "person" = None
  ∧ (∀ word, COCO80_TO_27 !! word = None → coarsen true word = word)
  ∧ (∀ rows cols masks word (mask : Tensor rows cols),
       COCO80_TO_27 !! word = None →
       _add_mask masks word mask true = _add_mask masks word mask false).
Proof.
  split; [reflexivity|]. split; [reflexivity|].
  split; [by apply (bool_decide_unpack _); vm_compute|].
  split; [by apply (bool_decide_unpack _); vm_compute|].
  split; [by vm_compute|]. split; [by vm_compute|].
  split; [apply coarsen_absent|].
  intros rows cols masks word mask Habs. unfold _add_mask.
  by rewrite (coarsen_absent _ Habs).
Qed.

(** Witness of C8: "sky" is no key of the table. *)
Lemma coarsen_table_witness :
  COCO80_TO_27 !! "sky" = None
  ∧ coarsen true "sky" = "sky"
  ∧ _add_mask 1%positive "sky" (pixel 1) true =
    _add_mask 1%positive "sky" (pixel 1) false.
Proof.
  assert (COCO80_TO_27 !! "sky" = None) as Habs by (by vm_compute).
  destruct coarsen_table as (_ & _ & _ & _ & _ & _ & Hkeep & Hsame).
  split; [exact Habs|]. split; [by apply Hkeep|]. by apply Hsame.
Defined.

(** * Properties of the token-merge resolver *)

(** ** The search for the word *)

Lemma index_None (l : list string) (x : string) :
  Str.index l x = None ↔ x ∉ l.
Proof.
  induction l as [|y l IH]; simpl.
  - split; [intros _; apply not_elem_of_nil|done].
  - destruct (String.eqb_spec y x) as [->|Hne].
    + split; [done|]. intros Hx. exfalso. apply Hx. left.
    + rewrite not_elem_of_cons, <- IH.
      destruct (Str.index l x); simpl.
      * split; [done|]. by intros [_ ?].
      * split; [|done]. intros _. split; [congruence|done].
Qed.

Lemma index_Some (l : list string) (x : string) (i : nat) :
  Str.index l x = Some i ↔
  l !! i = Some x ∧ ∀ j y, (j < i)%nat → l !! j = Some y → y ≠ x.
Proof.
  revert i. induction l as [|y l IH]; intros i; simpl.
  - split; [done|]. by intros [? _].
  - destruct (String.eqb_spec y x) as [->|Hne].
    + split.
      * intros [= <-]. split; [done|]. intros j y Hj. lia.
      * intros [Hi Hfirst]. destruct i as [|i]; [done|].
        exfalso. apply (Hfirst 0%nat x); [lia|done|done].
    + destruct (Str.index l x) as [k|]; simpl.
      * split.
        -- intros [= <-]. destruct (proj1 (IH k) eq_refl) as [Hk Hfirst].
           split; [done|].
           intros [|j] z Hj; simpl; [by intros [= <-]|].
           apply Hfirst. lia.
        -- intros [Hi Hfirst]. destruct i as [|i]; simpl in Hi; [congruence|].
           assert (Some k = Some i) as [= ->]; [|done].
           apply IH. split; [done|].
           intros j z Hj. apply (Hfirst (S j)). lia.
      * split; [done|]. intros [Hi Hfirst].
        destruct i as [|i]; simpl in Hi; [congruence|].
        assert (@None nat = Some i) as Hc; [|done].
        apply IH. split; [done|].
        intros j z Hj. apply (Hfirst (S j)). lia.
Qed.

Lemma try_puncts_None (words : list string) (word : string)
    (puncts : list string) :
  try_puncts words word puncts = None ↔
  ∀ punct, punct ∈ puncts → word +:+ punct ∉ words.
Proof.
  induction puncts as [|p ps IH]; simpl.
  - split; [|done]. intros _ punct Hp. by apply elem_of_nil in Hp.
  - destruct (Str.index words (word +:+ p)) as [i|] eqn:Hi.
    + split; [done|]. intros Hall. exfalso.
      assert (Str.index words (word +:+ p) = None) as Hn; [|congruence].
      apply index_None, Hall. left.
    + rewrite IH. apply index_None in Hi. split.
      * intros Hall punct [->|Hp]%elem_of_cons; [done|by apply Hall].
      * intros Hall punct Hp. apply Hall. by right.
Qed.

Lemma find_word_idx_None (prompt word : string) :
  find_word_idx prompt word = None ↔
  (word ∉ Str.split prompt)
  ∧ (∀ punct, punct ∈ PUNCTS → word +:+ punct ∉ Str.split prompt).
Proof.
  unfold find_word_idx.
  destruct (Str.index (Str.split prompt) word) as [i|] eqn:Hi.
  - split; [done|]. intros [Hn _]. apply index_None in Hn. congruence.
  - rewrite try_puncts_None. apply index_None in Hi. tauto.
Qed.

(** C3.  With no [word_idx] given, when neither the lower-cased word nor
    the lower-cased word followed by one of the marks ".", ",", "!", "?"
    is a word of the whitespace-split lower-cased prompt, the call raises
    the [ValueError] whose message carries the lower-cased word and the
    lower-cased prompt. *)
Theorem word_not_found (tokenize : string → list string)
    (prompt word : string) :
  Str.lower word ∉ Str.split (Str.lower prompt) →
  (∀ punct, punct ∈ PUNCTS →
     Str.lower word +:+ punct ∉ Str.split (Str.lower prompt)) →
  compute_token_merge_indices tokenize prompt word None =
    Raise (ValueError (not_found_msg (Str.lower word) (Str.lower prompt))).
Proof.
  intros Hw Hp. unfold compute_token_merge_indices, resolve_word_idx.
  by rewrite (proj2 (find_word_idx_None _ _) (conj Hw Hp)).
Qed.

(** The error is raised in no other case. *)
Lemma word_found (tokenize : string → list string) (prompt word : string)
    (word_idx : option Z) (e : exn) :
  compute_token_merge_indices tokenize prompt word word_idx = Raise e →
  word_idx = None
  ∧ (Str.lower word ∉ Str.split (Str.lower prompt))
  ∧ (∀ punct, punct ∈ PUNCTS →
       Str.lower word +:+ punct ∉ Str.split (Str.lower prompt)).
Proof.
  unfold compute_token_merge_indices, resolve_word_idx.
  destruct word_idx as [i|]; [done|].
  destruct (find_word_idx _ _) eqn:Hf; [done|].
  intros _. split; [done|]. by apply find_word_idx_None.
Qed.

(** The marks are tried in the order of the source and the first match
    is taken. *)
Lemma find_word_idx_order (prompt word : string) :
  find_word_idx prompt word =
    let words := Str.split prompt in
    match Str.index words word with
    | Some i => Some i
    | None =>
      match Str.index words (word +:+ ".") with
      | Some i => Some i
      | None =>
        match Str.index words (word +:+ ",") with
        | Some i => Some i
        | None =>
          match Str.index words (word +:+ "!") with
          | Some i => Some i
          | None => Str.index words (word +:+ "?")
          end
        end
      end
    end.
Proof.
  unfold find_word_idx, PUNCTS, try_puncts.
  by repeat (destruct (Str.index _ _)).
Qed.

(** Witness of C3: "dog" in the prompt "A cat". *)
Lemma word_not_found_witness :
  compute_token_merge_indices (λ _, ["a</w>"; "cat</w>"]) "A cat" "Dog" None =
    Raise (ValueError (not_found_msg "dog" "a cat")).
Proof.
  apply (word_not_found (λ _, ["a</w>"; "cat</w>"]) "A cat" "Dog").
  - apply (bool_decide_unpack (_ ∉ _)). vm_compute. exact I.
  - apply (proj1 (Forall_forall
             (λ punct, Str.lower "Dog" +:+ punct ∉ Str.split (Str.lower "A cat"))
             PUNCTS)).
    apply (bool_decide_unpack (Forall _ _)). vm_compute. exact I.
Defined.

(** ** The walk that finds no match *)

(** When the loop runs out of tokens, every position left in the buffer
    belongs to the run of marker-free tokens that ends the sequence. *)
Lemma walk_loop_exhausted (word : string) (word_idx : Z)
    (rest pre : list string) (s s' : walk) :
  walk_loop word word_idx (length pre) rest s = (s', false) →
  (∀ j, j ∈ merge_idxs s → open_from pre j) →
  ∀ j, j ∈ merge_idxs s' → open_from (pre ++ rest) j.
Proof.
  revert pre s. induction rest as [|token rest IH]; intros pre s Hrun Hinv.
  - simpl in Hrun. injection Hrun as <-. by rewrite app_nil_r.
  - simpl in Hrun. unfold walk_body in Hrun.
    assert (length (pre ++ [token]) = S (length pre)) as Hlen
      by (rewrite length_app; simpl; lia).
    rewrite (cons_middle token pre rest), app_assoc.
    destruct (Str.contains EOW token) eqn:Hmark.
    + destruct (_ && _); [done|].
      rewrite <- Hlen in Hrun. apply (IH _ _ Hrun).
      intros j Hj. by apply elem_of_nil in Hj.
    + rewrite <- Hlen in Hrun. apply (IH _ _ Hrun). simpl.
      intros j Hj. rewrite <- app_assoc in Hj.
      assert (j ∈ merge_idxs s ∨ j = length pre) as [Hold| ->].
      { apply elem_of_app in Hj as [?|Hj]; [by left|right].
        apply elem_of_app in Hj as [Hj|Hj]; by apply list_elem_of_singleton in Hj. }
      * destruct (Hinv j Hold) as [Hlt Hopen]. split; [lia|].
        intros q t Hq Ht.
        destruct (decide (q < length pre)%nat) as [Hin|Hout].
        -- rewrite lookup_app_l in Ht by done. by apply (Hopen q).
        -- rewrite lookup_app_r in Ht by lia.
           apply list_lookup_singleton_Some in Ht as [_ <-]. done.
      * split; [lia|]. intros q t Hq Ht.
        rewrite lookup_app_r in Ht by lia.
        apply list_lookup_singleton_Some in Ht as [_ <-]. done.
Qed.

(** C2, as amended.  When the word index is known and the walk runs out
    of tokens with its stop condition never met, the call raises nothing:
    it returns a list.  Every index of that list is the position, plus
    one, of a token in the run of marker-free tokens that ends the
    sequence; the list is empty when the last token carries the marker
    and when there is no token. *)
Theorem walk_exhausted_returns (tokenize : string → list string)
    (prompt word : string) (word_idx : option Z) (i : Z) :
  resolve_word_idx (Str.lower prompt) (Str.lower word) word_idx = Return i →
  walk_exhausted (tokenize (Str.lower prompt)) (Str.lower word) i = true →
  ∃ l, compute_token_merge_indices tokenize prompt word word_idx = Return l
    ∧ (∀ k, k ∈ l →
         ∃ j, k = S j ∧ open_from (tokenize (Str.lower prompt)) j)
    ∧ (∀ t, last (tokenize (Str.lower prompt)) = Some t →
         Str.contains EOW t = true → l = [])
    ∧ (tokenize (Str.lower prompt) = [] → l = []).
Proof.
  intros Hres Hex. unfold compute_token_merge_indices. rewrite Hres.
  unfold walk_exhausted in Hex.
  destruct (walk_loop (Str.lower word) i 0 (tokenize (Str.lower prompt))
              walk_init) as [s' stopped] eqn:Hrun.
  simpl in Hex. destruct stopped; [done|]. clear Hex.
  pose proof (walk_loop_exhausted _ _ _ [] _ _ Hrun) as Hinv. simpl in Hinv.
  assert (∀ j, j ∈ merge_idxs s' → open_from (tokenize (Str.lower prompt)) j)
    as Hopen.
  { apply Hinv. intros j Hj. by apply elem_of_nil in Hj. }
  eexists. split; [reflexivity|]. simpl. split; [|split].
  - intros k Hk. apply list_elem_of_fmap in Hk as (j & -> & Hj). eauto.
  - intros t Hlast Hmark.
    destruct (merge_idxs s') as [|j m] eqn:Hm; [done|]. exfalso.
    destruct (Hopen j) as [Hlt Hfree]; [left|].
    rewrite last_lookup in Hlast.
    assert (j ≤ pred (length (tokenize (Str.lower prompt))))%nat as Hle by lia.
    by rewrite (Hfree _ t Hle Hlast) in Hmark.
  - intros Hnil. rewrite Hnil in Hrun. simpl in Hrun. by injection Hrun as <-.
Qed.

(** C2: the prompt "hello, world" split at the comma by the tokenizer.
    The walk counts three words where the prompt has two, never meets its
    stop condition for "world", and the call returns the empty list. *)
Lemma walk_exhausted_no_error :
  walk_exhausted ["hello</w>"; ",</w>"; "world</w>"] "world" 1 = true
  ∧ compute_token_merge_indices (λ _, ["hello</w>"; ",</w>"; "world</w>"])
      "hello, world" "world" None = Return [].
Proof. split; vm_compute; reflexivity. Qed.

(** Witness of C2: the same call. *)
Lemma walk_exhausted_returns_witness :
  resolve_word_idx (Str.lower "hello, world") (Str.lower "world") None
    = Return 1%Z
  ∧ walk_exhausted ["hello</w>"; ",</w>"; "world</w>"] (Str.lower "world") 1
    = true
  ∧ ∃ l, compute_token_merge_indices
           (λ _, ["hello</w>"; ",</w>"; "world</w>"]) "hello, world" "world" None
         = Return l ∧ l = [].
Proof.
  split; [vm_compute; reflexivity|]. split; [vm_compute; reflexivity|].
  destruct (walk_exhausted_returns (λ _, ["hello</w>"; ",</w>"; "world</w>"])
              "hello, world" "world" None 1%Z)
    as (l & Hl & _ & Hlast & _).
  - vm_compute. reflexivity.
  - vm_compute. reflexivity.
  - exists l. split; [exact Hl|].
    apply (Hlast "world</w>"); vm_compute; reflexivity.
Defined.

(** ** The walk over an aligned tokenization *)

Lemma append_cons (c : ascii) (s t : string) :
  String c s +:+ t = String c (s +:+ t).
Proof. reflexivity. Qed.

Lemma append_nil_l (s : string) : EmptyString +:+ s = s.
Proof. reflexivity. Qed.

Lemma append_nil_r (s : string) : s +:+ EmptyString = s.
Proof. induction s as [|c s IH]; [done|]. by rewrite append_cons, IH. Qed.

Lemma append_assoc (s t u : string) : (s +:+ t) +:+ u = s +:+ (t +:+ u).
Proof. induction s as [|c s IH]; [done|]. by rewrite !append_cons, IH. Qed.

Lemma spell_app (run1 run2 : list string) :
  spell (run1 ++ run2) = spell run1 +:+ spell run2.
Proof.
  induction run1 as [|t run1 IH]; [done|].
  simpl. by rewrite IH, append_assoc.
Qed.

Lemma twice_each_S (start k : nat) :
  twice_each start (S k) = start :: start :: twice_each (S start) k.
Proof. reflexivity. Qed.

Lemma elem_of_twice_each (start k j : nat) :
  j ∈ twice_each start k ↔ (start ≤ j < start + k)%nat.
Proof.
  revert start. induction k as [|k IH]; intros start.
  - split; [by intros ?%elem_of_nil|lia].
  - rewrite twice_each_S, !elem_of_cons, IH. lia.
Qed.

(** The buffer of a word found, offset by one, is in non-decreasing
    order. *)
Lemma buffer_sorted (start k : nat) :
  StronglySorted le (S <$> (twice_each start k ++ [(start + k)%nat])).
Proof.
  revert start. induction k as [|k IH]; intros start.
  - simpl. repeat constructor.
  - rewrite twice_each_S. simpl.
    replace (start + S k)%nat with (S start + k)%nat by lia.
    assert (Forall (le (S start))
              (S <$> (twice_each (S start) k ++ [(S start + k)%nat]))) as Hge.
    { apply Forall_forall. intros x Hx.
      apply list_elem_of_fmap in Hx as (j & -> & Hj).
      apply elem_of_app in Hj as [Hj|Hj].
      - apply elem_of_twice_each in Hj. lia.
      - apply list_elem_of_singleton in Hj. lia. }
    rewrite !StronglySorted_cons.
    split; [constructor; [lia|exact Hge]|].
    split; [exact Hge|apply IH].
Qed.

(** The pieces of a word that carry no marker: each one is buffered
    twice and added to the word read so far. *)
Lemma walk_pieces (word : string) (word_idx : Z) (pieces rest : list string)
    (idx : nat) (m : list nat) (c : nat) (t : string) :
  Forall (λ piece, Str.contains EOW piece = false) pieces →
  walk_loop word word_idx idx (pieces ++ rest) (Walk m c t) =
  walk_loop word word_idx (idx + length pieces) rest
    (Walk (m ++ twice_each idx (length pieces)) c (t +:+ spell pieces)).
Proof.
  intros Hfree. revert idx m t.
  induction Hfree as [|p pieces Hp _ IH]; intros idx m t.
  - simpl. by rewrite Nat.add_0_r, app_nil_r, append_nil_r.
  - simpl. unfold walk_body. rewrite Hp. simpl.
    rewrite IH. rewrite twice_each_S.
    replace (S idx + length pieces)%nat with (idx + S (length pieces))%nat by lia.
    unfold detok. rewrite Hp.
    by rewrite <- !app_assoc, append_assoc.
Qed.

(** One run: the walk stops on its last piece when the counter and the
    word match, and starts afresh after it otherwise. *)
Lemma walk_run (word : string) (word_idx : Z) (pieces : list string)
    (final : string) (rest : list string) (idx c : nat) :
  Forall (λ piece, Str.contains EOW piece = false) pieces →
  Str.contains EOW final = true →
  walk_loop word word_idx idx ((pieces ++ [final]) ++ rest)
    (Walk [] c EmptyString) =
  if (Z.of_nat c =? word_idx)%Z && String.eqb (spell (pieces ++ [final])) word
  then (Walk (twice_each idx (length pieces) ++ [(idx + length pieces)%nat])
          c (spell (pieces ++ [final])), true)
  else walk_loop word word_idx (idx + length (pieces ++ [final])) rest
         (Walk [] (S c) EmptyString).
Proof.
  intros Hfree Hmark.
  assert (spell (pieces ++ [final]) = spell pieces +:+ Str.drop_last 4 final)
    as ->.
  { rewrite spell_app. unfold spell at 2, detok. simpl.
    by rewrite Hmark, append_nil_r. }
  rewrite <- app_assoc, (walk_pieces _ _ _ _ _ _ _ _ Hfree).
  simpl. unfold walk_body. rewrite Hmark. simpl.
  rewrite append_nil_l.
  destruct (_ && _); [done|].
  rewrite length_app. simpl.
  by replace (S (idx + length pieces)) with (idx + (length pieces + 1))%nat by lia.
Qed.

(** The runs before the word looked for are passed one by one. *)
Lemma walk_runs_skip (word : string) (word_idx : Z) (runs : list (list string))
    (rest : list string) (idx c : nat) :
  Forall word_run runs →
  (Z.of_nat (c + length runs) ≤ word_idx)%Z →
  walk_loop word word_idx idx (concat runs ++ rest) (Walk [] c EmptyString) =
  walk_loop word word_idx (idx + length (concat runs)) rest
    (Walk [] (c + length runs) EmptyString).
Proof.
  intros Hruns. revert idx c.
  induction Hruns as [|run runs Hrun _ IH]; intros idx c Hle.
  - simpl. by rewrite !Nat.add_0_r.
  - destruct Hrun as (pieces & final & -> & Hfree & Hmark).
    simpl in *. rewrite <- app_assoc.
    rewrite (walk_run _ _ _ _ _ _ _ Hfree Hmark).
    replace (Z.of_nat c =? word_idx)%Z with false
      by (symmetry; apply Z.eqb_neq; lia).
    simpl. rewrite IH by lia.
    rewrite !length_app. f_equal; [lia|]. f_equal. lia.
Qed.

Lemma index_first (before after : list string) (x : string) :
  x ∉ before → Str.index (before ++ x :: after) x = Some (length before).
Proof.
  induction before as [|y before IH]; simpl; intros Hx.
  - by rewrite String.eqb_refl.
  - apply not_elem_of_cons in Hx as [Hne Hx].
    destruct (String.eqb_spec y x) as [->|_]; [done|].
    by rewrite IH.
Qed.

Lemma aligned_runs (runs : list (list string)) (words : list string) :
  Forall2 (λ run word, word_run run ∧ spell run = word) runs words →
  Forall word_run runs.
Proof. induction 1 as [|run word runs words [Hrun _] _ IH]; by constructor. Qed.

(** The walk over an aligned tokenization, looking for the word at
    position [length before]: it passes the runs of the words before and
    stops on the last piece of the word, the buffer holding the positions
    of its pieces. *)
Lemma walk_aligned (word : string) (before after tokens : list string) :
  aligned tokens (before ++ word :: after) →
  ∃ runs1 pieces final runs2,
    tokens = concat runs1 ++ (pieces ++ [final]) ++ concat runs2
    ∧ spell (pieces ++ [final]) = word
    ∧ walk_loop word (Z.of_nat (length before)) 0 tokens walk_init =
        (Walk (twice_each (length (concat runs1)) (length pieces)
                 ++ [(length (concat runs1) + length pieces)%nat])
           (length before) word, true).
Proof.
  intros (runs & -> & Hall).
  apply Forall2_app_inv_r in Hall as (runs1 & runs' & Hall1 & Hall' & ->).
  apply Forall2_cons_inv_r in Hall' as (this_run & runs2 & [Hrun Hspell] & _ & ->).
  destruct Hrun as (pieces & final & -> & Hfree & Hmark).
  exists runs1, pieces, final, runs2.
  assert (concat (runs1 ++ (pieces ++ [final]) :: runs2) =
          concat runs1 ++ (pieces ++ [final]) ++ concat runs2) as ->
    by (by rewrite concat_app).
  split; [done|]. split; [done|].
  pose proof (Forall2_length _ _ _ Hall1) as Hlen.
  unfold walk_init.
  rewrite (walk_runs_skip _ _ runs1 _ 0 0 (aligned_runs _ _ Hall1)) by (simpl; lia).
  rewrite (walk_run _ _ _ _ _ _ _ Hfree Hmark). simpl.
  rewrite Hlen, Z.eqb_refl, Hspell, String.eqb_refl. done.
Qed.

(** C1, as amended.  When the lower-cased word is a word of the
    whitespace-split lower-cased prompt and the tokens are aligned with
    those words, the call returns a list that is not empty and in
    non-decreasing order; its values are exactly the positions, plus one,
    of a run of [n] tokens that starts at position [start], and these
    tokens, stripped of their markers and concatenated, are the
    lower-cased word. *)
Theorem resolve_aligned (tokenize : string → list string)
    (prompt word : string) :
  Str.lower word ∈ Str.split (Str.lower prompt) →
  aligned (tokenize (Str.lower prompt)) (Str.split (Str.lower prompt)) →
  ∃ l start n,
    compute_token_merge_indices tokenize prompt word None = Return l
    ∧ l ≠ []
    ∧ StronglySorted le l
    ∧ (∀ k, k ∈ l ↔ (start < k ≤ start + n)%nat)
    ∧ (start + n ≤ length (tokenize (Str.lower prompt)))%nat
    ∧ spell (take n (drop start (tokenize (Str.lower prompt)))) =
        Str.lower word.
Proof.
  intros Hin Hal.
  apply list_elem_of_split_l in Hin as (before & after & Hwords & Hfirst).
  rewrite Hwords in Hal.
  destruct (walk_aligned _ _ _ _ Hal)
    as (runs1 & pieces & final & runs2 & Htok & Hspell & Hwalk).
  exists (S <$> (twice_each (length (concat runs1)) (length pieces)
                   ++ [(length (concat runs1) + length pieces)%nat])),
    (length (concat runs1)), (S (length pieces)).
  split; [|split; [|split; [|split; [|split]]]].
  - unfold compute_token_merge_indices, resolve_word_idx, find_word_idx.
    rewrite Hwords, (index_first _ _ _ Hfirst), Hwalk. done.
  - rewrite fmap_app. simpl. intros Hnil. by apply app_nil in Hnil as [_ ?].
  - apply buffer_sorted.
  - intros k. rewrite list_elem_of_fmap. split.
    + intros (j & -> & Hj). apply elem_of_app in Hj as [Hj|Hj].
      * apply elem_of_twice_each in Hj. lia.
      * apply list_elem_of_singleton in Hj. lia.
    + intros Hk. exists (pred k). split; [lia|].
      destruct (decide (pred k = length (concat runs1) + length pieces)%nat)
        as [->|Hne].
      * apply elem_of_app. right. by apply list_elem_of_singleton.
      * apply elem_of_app. left. apply elem_of_twice_each. lia.
  - rewrite Htok, !length_app. simpl. lia.
  - rewrite Htok, drop_app_length.
    rewrite take_app_length' by (rewrite length_app; simpl; lia).
    exact Hspell.
Qed.

(** ** Lower-casing and splitting *)

Lemma isspace_lower_char (c : ascii) :
  Str.isspace (Str.lower_char c) = Str.isspace c.
Proof. by destruct c as [[] [] [] [] [] [] [] []]. Qed.

Lemma lower_app (s t : string) :
  Str.lower (s +:+ t) = Str.lower s +:+ Str.lower t.
Proof.
  induction s as [|c s IH]; [done|].
  rewrite append_cons. simpl. by rewrite IH.
Qed.

Lemma split_go_lower (cur s : string) :
  Str.split_go (Str.lower cur) (Str.lower s) =
  Str.lower <$> Str.split_go cur s.
Proof.
  revert cur. induction s as [|c s IH]; intros cur; simpl.
  - by destruct cur.
  - rewrite isspace_lower_char. destruct (Str.isspace c).
    + destruct cur; simpl.
      * apply (IH EmptyString).
      * f_equal. apply (IH EmptyString).
    + rewrite <- IH. by rewrite lower_app.
Qed.

(** The words of the lower-cased prompt are the lower-cased words of
    the prompt. *)
Lemma split_lower (s : string) :
  Str.split (Str.lower s) = Str.lower <$> Str.split s.
Proof. apply (split_go_lower EmptyString). Qed.

(** A word of the prompt is, lower-cased, a word of the lower-cased
    prompt. *)
Lemma occurs_lower (prompt word : string) :
  word ∈ Str.split prompt → Str.lower word ∈ Str.split (Str.lower prompt).
Proof. intros Hin. rewrite split_lower. by apply list_elem_of_fmap_2. Qed.

(** ** Concrete calls *)

(** C1: "world" occurs once in the prompt "hello, world", whose
    tokenizer makes a token of the comma.  The call returns the empty
    list. *)
Lemma resolve_misaligned_empty :
  Str.split "hello, world" = ["hello,"; "world"]
  ∧ compute_token_merge_indices (λ _, ["hello</w>"; ",</w>"; "world</w>"])
      "hello, world" "world" None = Return [].
Proof. split; vm_compute; reflexivity. Qed.

(** A word in two pieces: the position of the first piece is returned
    twice. *)
Example resolve_two_pieces :
  compute_token_merge_indices (λ _, ["a</w>"; "ca"; "t</w>"])
    "a cat" "cat" None = Return [2; 2; 3]%nat.
Proof. vm_compute. reflexivity. Qed.

(** The example of the specification. *)
Example resolve_cat_on_a_mat :
  compute_token_merge_indices
    (λ _, ["a</w>"; "cat</w>"; "on</w>"; "a</w>"; "mat</w>"])
    "a cat on a mat" "cat" None = Return [2%nat].
Proof. vm_compute. reflexivity. Qed.

(** A word followed by a mark is found through the retry. *)
Example resolve_with_punctuation :
  compute_token_merge_indices (λ _, ["a</w>"; "cat!</w>"]) "a cat!" "cat" None
  = compute_token_merge_indices (λ _, ["a</w>"; "cat!</w>"]) "a cat!" "cat"
      (Some 1%Z).
Proof. vm_compute. reflexivity. Qed.

(** Witness of C1: "Cat" in the prompt "A cat", the word in two
    pieces. *)
Lemma resolve_aligned_witness :
  Str.lower "Cat" ∈ Str.split (Str.lower "A cat")
  ∧ aligned ["a</w>"; "ca"; "t</w>"] (Str.split (Str.lower "A cat"))
  ∧ ∃ l start n,
      compute_token_merge_indices (λ _, ["a</w>"; "ca"; "t</w>"]) "A cat" "Cat"
        None = Return l
      ∧ l ≠ []
      ∧ StronglySorted le l
      ∧ (∀ k, k ∈ l ↔ (start < k ≤ start + n)%nat)
      ∧ (start + n ≤ 3)%nat
      ∧ spell (take n (drop start ["a</w>"; "ca"; "t</w>"])) = "cat".
Proof.
  assert (Str.lower "Cat" ∈ Str.split (Str.lower "A cat")) as Hin.
  { apply (bool_decide_unpack (_ ∈ _)). vm_compute. exact I. }
  assert (aligned ["a</w>"; "ca"; "t</w>"] (Str.split (Str.lower "A cat")))
    as Hal.
  { exists [["a</w>"]; ["ca"; "t</w>"]]. split; [reflexivity|].
    change (Str.split (Str.lower "A cat")) with ["a"; "cat"].
    constructor; [|constructor; [|constructor]].
    - split; [|reflexivity]. exists [], "a</w>". by repeat split.
    - split; [|reflexivity]. exists ["ca"], "t</w>".
      split; [reflexivity|]. split; [|reflexivity].
      by constructor. }
  split; [exact Hin|]. split; [exact Hal|].
  exact (resolve_aligned (λ _, ["a</w>"; "ca"; "t</w>"]) "A cat" "Cat" Hin Hal).
Defined.


(** * Further properties of the token-merge resolver *)

(** ** Order and range of the result *)

Lemma walk_loop_bounds (word : string) (word_idx : Z) (rest : list string)
    (idx : nat) (s s' : walk) (stopped : bool) :
  walk_loop word word_idx idx rest s = (s', stopped) →
  StronglySorted le (merge_idxs s) →
  (∀ j, j ∈ merge_idxs s → (j < idx)%nat) →
  StronglySorted le (merge_idxs s')
  ∧ ∀ j, j ∈ merge_idxs s' → (j < idx + length rest)%nat.
Proof.
  revert idx s. induction rest as [|token rest IH]; intros idx s Hrun Hs Hlt.
  - simpl in Hrun. injection Hrun as <- _. split; [done|].
    intros j Hj. apply Hlt in Hj. lia.
  - simpl in Hrun. unfold walk_body in Hrun.
    assert (StronglySorted le (merge_idxs s ++ [idx])) as Hs1.
    { apply StronglySorted_app. split; [|split; [done|repeat constructor]].
      intros x1 x2 Hx1 ->%list_elem_of_singleton. apply Hlt in Hx1. lia. }
    assert (∀ j, j ∈ merge_idxs s ++ [idx] → (j < S idx)%nat) as Hlt1.
    { intros j [Hj| ->%list_elem_of_singleton]%elem_of_app; [|lia].
      apply Hlt in Hj. lia. }
    destruct (Str.contains EOW token).
    + destruct (_ && _).
      * injection Hrun as <- _. simpl. split; [done|].
        intros j Hj. apply Hlt1 in Hj. simpl. lia.
      * destruct (IH _ _ Hrun) as [Hs' Hlt']; simpl.
        -- constructor.
        -- by intros j ?%elem_of_nil.
        -- split; [done|]. intros j Hj. apply Hlt' in Hj. lia.
    + destruct (IH _ _ Hrun) as [Hs' Hlt']; simpl.
      * apply StronglySorted_app. split; [|split; [done|repeat constructor]].
        intros x1 x2 Hx1 ->%list_elem_of_singleton. apply Hlt1 in Hx1. lia.
      * intros j [Hj| ->%list_elem_of_singleton]%elem_of_app; [|lia].
        by apply Hlt1.
      * split; [done|]. intros j Hj. apply Hlt' in Hj. lia.
Qed.

(** Whatever the tokenizer returns, a call that returns gives a list in
    non-decreasing order whose members lie between 1 and the number of
    tokens. *)
Theorem resolve_bounds (tokenize : string → list string)
    (prompt word : string) (word_idx : option Z) (l : list nat) :
  compute_token_merge_indices tokenize prompt word word_idx = Return l →
  StronglySorted le l
  ∧ ∀ k, k ∈ l → (1 ≤ k ≤ length (tokenize (Str.lower prompt)))%nat.
Proof.
  unfold compute_token_merge_indices.
  destruct (resolve_word_idx _ _ _) as [i|e]; [|done].
  intros [= <-].
  destruct (walk_loop (Str.lower word) i 0 (tokenize (Str.lower prompt))
              walk_init) as [s' stopped] eqn:Hrun.
  destruct (walk_loop_bounds _ _ _ _ _ _ _ Hrun) as [Hs Hlt].
  - constructor.
  - by intros j ?%elem_of_nil.
  - simpl. split.
    + apply (StronglySorted_fmap S le le); [|done]. intros x y Hxy. lia.
    + intros k (j & -> & Hj)%list_elem_of_fmap. apply Hlt in Hj. lia.
Qed.

Lemma resolve_bounds_witness :
  compute_token_merge_indices (λ _, ["a</w>"; "ca"; "t</w>"]) "a cat" "cat" None
    = Return [2; 2; 3]%nat
  ∧ StronglySorted le [2; 2; 3]%nat
  ∧ ∀ k, k ∈ [2; 2; 3]%nat → (1 ≤ k ≤ 3)%nat.
Proof.
  assert (compute_token_merge_indices (λ _, ["a</w>"; "ca"; "t</w>"]) "a cat"
            "cat" None = Return [2; 2; 3]%nat) as Hrun
    by (vm_compute; reflexivity).
  split; [exact Hrun|].
  exact (resolve_bounds (λ _, ["a</w>"; "ca"; "t</w>"]) "a cat" "cat" None _ Hrun).
Defined.

(** ** What a stop of the walk means *)

Lemma eow_count_app (l1 l2 : list string) :
  eow_count (l1 ++ l2) = (eow_count l1 + eow_count l2)%nat.
Proof. unfold eow_count. by rewrite filter_app, length_app. Qed.

Lemma eow_count_free (pieces : list string) :
  Forall (λ piece, Str.contains EOW piece = false) pieces →
  eow_count pieces = 0%nat.
Proof.
  unfold eow_count. induction 1 as [|p pieces Hp _ IH]; [done|].
  rewrite filter_cons_False; [done|]. by rewrite Hp.
Qed.

Lemma eow_count_marked (token : string) :
  Str.contains EOW token = true → eow_count [token] = 1%nat.
Proof. intros Hmark. unfold eow_count. by rewrite filter_cons_True. Qed.

Lemma spell_free (pieces : list string) (token : string) :
  Str.contains EOW token = false →
  spell (pieces ++ [token]) = spell pieces +:+ token.
Proof.
  intros Hfree. rewrite spell_app. unfold spell at 2, detok. simpl.
  by rewrite Hfree, append_nil_r.
Qed.

Lemma spell_marked (pieces : list string) (token : string) :
  Str.contains EOW token = true →
  spell (pieces ++ [token]) = spell pieces +:+ Str.drop_last 4 token.
Proof.
  intros Hmark. rewrite spell_app. unfold spell at 2, detok. simpl.
  by rewrite Hmark, append_nil_r.
Qed.

Lemma walk_inv_init : walk_inv [] walk_init.
Proof.
  exists [], []. split; [done|]. split; [by left|]. split; [constructor|].
  split; [done|]. split; [done|].
  intros j. split; [by intros ?%elem_of_nil|simpl; lia].
Qed.

(** A walk left through [break] has just read a run of tokens that
    spells the word and is preceded by as many end-of-word tokens as
    [word_idx] says; the buffer holds the positions of that run. *)
Lemma walk_loop_stop (word : string) (word_idx : Z) (rest pre : list string)
    (s s' : walk) :
  walk_loop word word_idx (length pre) rest s = (s', true) →
  walk_inv pre s →
  ∃ done this_run rest',
    pre ++ rest = done ++ this_run ++ rest'
    ∧ ends_word done
    ∧ word_run this_run
    ∧ spell this_run = word
    ∧ Z.of_nat (eow_count done) = word_idx
    ∧ ∀ j, j ∈ merge_idxs s' ↔
           (length done ≤ j < length done + length this_run)%nat.
Proof.
  revert pre s. induction rest as [|token rest IH]; intros pre s Hrun Hinv.
  - done.
  - simpl in Hrun. unfold walk_body in Hrun.
    destruct Hinv as (done & cur & Hpre & Hdone & Hfree & Hidx & Htok & Hbuf).
    assert (length (pre ++ [token]) = S (length pre)) as Hlen
      by (rewrite length_app; simpl; lia).
    assert (length pre = length done + length cur)%nat as Hlen'
      by (by rewrite Hpre, length_app).
    destruct (Str.contains EOW token) eqn:Hmark.
    + destruct (Z.eqb_spec (Z.of_nat (curr_idx s)) word_idx) as [Hc|Hc];
        simpl in Hrun;
        [destruct (String.eqb_spec (curr_token s +:+ Str.drop_last 4 token) word)
           as [Hw|Hw]|].
      * injection Hrun as <-. exists done, (cur ++ [token]), rest.
        split; [by rewrite Hpre, <- !app_assoc|].
        split; [done|]. split; [by exists cur, token|].
        split; [by rewrite (spell_marked _ _ Hmark), <- Htok|].
        split; [by rewrite <- Hidx|].
        intros j. simpl. rewrite elem_of_app, list_elem_of_singleton, Hbuf.
        rewrite length_app. simpl. lia.
      * rewrite <- Hlen in Hrun.
        rewrite (cons_middle token pre rest), app_assoc.
        apply (IH _ _ Hrun). exists (pre ++ [token]), [].
        rewrite app_nil_r. split; [done|].
        split; [right; exists token; by rewrite last_snoc|].
        split; [constructor|]. simpl. split.
        { rewrite Hpre, <- app_assoc, !eow_count_app.
          rewrite (eow_count_free _ Hfree), (eow_count_marked _ Hmark). lia. }
        split; [done|]. intros j. split; [by intros ?%elem_of_nil|lia].
      * rewrite <- Hlen in Hrun.
        rewrite (cons_middle token pre rest), app_assoc.
        apply (IH _ _ Hrun). exists (pre ++ [token]), [].
        rewrite app_nil_r. split; [done|].
        split; [right; exists token; by rewrite last_snoc|].
        split; [constructor|]. simpl. split.
        { rewrite Hpre, <- app_assoc, !eow_count_app.
          rewrite (eow_count_free _ Hfree), (eow_count_marked _ Hmark). lia. }
        split; [done|]. intros j. split; [by intros ?%elem_of_nil|lia].
    + rewrite <- Hlen in Hrun.
      rewrite (cons_middle token pre rest), app_assoc.
      apply (IH _ _ Hrun). exists done, (cur ++ [token]).
      split; [by rewrite Hpre, <- app_assoc|]. split; [done|].
      split; [apply Forall_app; split; [done|by constructor]|].
      simpl. split; [done|].
      split; [by rewrite (spell_free _ _ Hmark), Htok|].
      intros j. rewrite !elem_of_app, list_elem_of_singleton, Hbuf, Hlen. lia.
Qed.

(** When the walk of a call stops, the returned indices are the
    positions, plus one, of a run of consecutive tokens that spells the
    lower-cased word, starts at the beginning of a word and comes after
    exactly [word_idx] end-of-word tokens. *)
Theorem resolve_stop_sound (tokenize : string → list string)
    (prompt word : string) (word_idx : option Z) (i : Z) :
  resolve_word_idx (Str.lower prompt) (Str.lower word) word_idx = Return i →
  walk_exhausted (tokenize (Str.lower prompt)) (Str.lower word) i = false →
  ∃ l done this_run rest,
    compute_token_merge_indices tokenize prompt word word_idx = Return l
    ∧ tokenize (Str.lower prompt) = done ++ this_run ++ rest
    ∧ ends_word done
    ∧ word_run this_run
    ∧ spell this_run = Str.lower word
    ∧ Z.of_nat (eow_count done) = i
    ∧ ∀ k, k ∈ l ↔ (length done < k ≤ length done + length this_run)%nat.
Proof.
  intros Hres Hstop. unfold compute_token_merge_indices. rewrite Hres.
  unfold walk_exhausted in Hstop.
  destruct (walk_loop (Str.lower word) i 0 (tokenize (Str.lower prompt))
              walk_init) as [s' stopped] eqn:Hrun.
  simpl in Hstop. destruct stopped; [|done]. clear Hstop.
  destruct (walk_loop_stop _ _ _ [] _ _ Hrun walk_inv_init)
    as (done & this_run & rest & Htok & Hdone & Hword & Hspell & Hcount & Hbuf).
  simpl in Htok. eexists _, done, this_run, rest.
  split; [reflexivity|]. do 5 (split; [done|]).
  intros k. simpl. rewrite list_elem_of_fmap. split.
  - intros (j & -> & Hj). apply Hbuf in Hj. lia.
  - intros Hk. exists (pred k). split; [lia|]. apply Hbuf. lia.
Qed.

Lemma resolve_stop_sound_witness :
  resolve_word_idx (Str.lower "hi, a cat") (Str.lower "a") (Some 2%Z) = Return 2%Z
  ∧ walk_exhausted ["hi</w>"; ",</w>"; "a</w>"; "cat</w>"] (Str.lower "a") 2
    = false
  ∧ ∃ l done this_run rest,
      compute_token_merge_indices (λ _, ["hi</w>"; ",</w>"; "a</w>"; "cat</w>"])
        "hi, a cat" "a" (Some 2%Z) = Return l
      ∧ ["hi</w>"; ",</w>"; "a</w>"; "cat</w>"] = done ++ this_run ++ rest
      ∧ spell this_run = "a"
      ∧ Z.of_nat (eow_count done) = 2%Z
      ∧ ∀ k, k ∈ l ↔ (length done < k ≤ length done + length this_run)%nat.
Proof.
  split; [reflexivity|]. split; [vm_compute; reflexivity|].
  destruct (resolve_stop_sound (λ _, ["hi</w>"; ",</w>"; "a</w>"; "cat</w>"])
              "hi, a cat" "a" (Some 2%Z) 2%Z)
    as (l & done & this_run & rest & Hl & Htok & _ & _ & Hspell & Hcount & Hbuf).
  - reflexivity.
  - vm_compute. reflexivity.
  - by exists l, done, this_run, rest.
Defined.

(** ** Aligned tokens and a word that is not at the index *)

(** The walk passes every run whose word is not the word looked for at
    the index looked for. *)
Lemma walk_runs_miss (word : string) (word_idx : Z)
    (runs : list (list string)) (words rest : list string) (idx c : nat) :
  Forall2 (λ this_run w, word_run this_run ∧ spell this_run = w) runs words →
  (∀ k w, words !! k = Some w → Z.of_nat (c + k) = word_idx → w ≠ word) →
  walk_loop word word_idx idx (concat runs ++ rest) (Walk [] c EmptyString) =
  walk_loop word word_idx (idx + length (concat runs)) rest
    (Walk [] (c + length runs) EmptyString).
Proof.
  intros Hall. revert idx c.
  induction Hall as [|this_run w runs words [Hrun Hspell] _ IH];
    intros idx c Hmiss.
  - simpl. by rewrite !Nat.add_0_r.
  - destruct Hrun as (pieces & final & -> & Hfree & Hmark).
    simpl. rewrite <- app_assoc.
    rewrite (walk_run _ _ _ _ _ _ _ Hfree Hmark).
    assert ((Z.of_nat c =? word_idx)%Z
            && String.eqb (spell (pieces ++ [final])) word = false) as ->.
    { apply andb_false_iff.
      destruct (Z.eqb_spec (Z.of_nat c) word_idx) as [Hc|Hc]; [right|by left].
      apply String.eqb_neq. rewrite Hspell.
      apply (Hmiss 0%nat); [done|]. by rewrite Nat.add_0_r. }
    rewrite IH.
    + rewrite !length_app. f_equal; [lia|]. f_equal. lia.
    + intros k w' Hk Hc. apply (Hmiss (S k)); [done|].
      rewrite <- Hc. f_equal. lia.
Qed.

Lemma walk_aligned_miss (tokenize : string → list string)
    (prompt word : string) (word_idx : option Z) (i : Z) :
  aligned (tokenize (Str.lower prompt)) (Str.split (Str.lower prompt)) →
  resolve_word_idx (Str.lower prompt) (Str.lower word) word_idx = Return i →
  (∀ k, Str.split (Str.lower prompt) !! k = Some (Str.lower word) →
        Z.of_nat k ≠ i) →
  compute_token_merge_indices tokenize prompt word word_idx = Return [].
Proof.
  intros (runs & Htok & Hall) Hres Hmiss.
  unfold compute_token_merge_indices. rewrite Hres, Htok.
  rewrite <- (app_nil_r (concat runs)). unfold walk_init.
  rewrite (walk_runs_miss _ _ _ _ _ _ _ Hall); [done|].
  intros k w Hk Hc ->. by apply (Hmiss k).
Qed.

(** With aligned tokens, a call whose index is not the position of the
    lower-cased word among the words of the prompt returns the empty
    list. *)
Theorem resolve_aligned_miss (tokenize : string → list string)
    (prompt word : string) (word_idx : option Z) (i : Z) :
  aligned (tokenize (Str.lower prompt)) (Str.split (Str.lower prompt)) →
  resolve_word_idx (Str.lower prompt) (Str.lower word) word_idx = Return i →
  (∀ k, Str.split (Str.lower prompt) !! k = Some (Str.lower word) →
        Z.of_nat k ≠ i) →
  compute_token_merge_indices tokenize prompt word word_idx = Return [].
Proof. apply walk_aligned_miss. Qed.

Lemma aligned_a_cat : aligned ["a</w>"; "cat</w>"] (Str.split (Str.lower "a cat")).
Proof.
  exists [["a</w>"]; ["cat</w>"]]. split; [reflexivity|].
  change (Str.split (Str.lower "a cat")) with ["a"; "cat"].
  constructor; [|constructor; [|constructor]];
    (split; [|reflexivity]); eexists [], _; by repeat split.
Qed.

Lemma resolve_aligned_miss_witness :
  aligned ["a</w>"; "cat</w>"] (Str.split (Str.lower "a cat"))
  ∧ resolve_word_idx (Str.lower "a cat") (Str.lower "cat") (Some 0%Z) = Return 0%Z
  ∧ compute_token_merge_indices (λ _, ["a</w>"; "cat</w>"]) "a cat" "cat"
      (Some 0%Z) = Return [].
Proof.
  split; [exact aligned_a_cat|]. split; [reflexivity|].
  apply (resolve_aligned_miss (λ _, ["a</w>"; "cat</w>"]) "a cat" "cat"
           (Some 0%Z) 0%Z aligned_a_cat eq_refl).
  intros [|[|k]] Hk; [done|done|done].
Defined.

Lemma try_puncts_Some (words : list string) (word : string)
    (puncts : list string) (i : nat) :
  try_puncts words word puncts = Some i →
  ∃ punct, punct ∈ puncts ∧ Str.index words (word +:+ punct) = Some i.
Proof.
  induction puncts as [|p puncts IH]; simpl; [done|].
  destruct (Str.index words (word +:+ p)) as [k|] eqn:Hk.
  - intros [= <-]. exists p. split; [left|done].
  - intros (punct & Hin & Hi)%IH. exists punct. split; [by right|done].
Qed.

(** A word that is not a word of the prompt as it stands is looked for
    again with one of the marks ".", ",", "!", "?" attached.  When the
    tokens are aligned with the words of the prompt and the word is found
    with a mark, the search succeeds, but the mark is part of what the
    run spells, the walk never meets the bare word, and the call returns
    the empty list; when it is found with none of the marks, the call
    raises the [ValueError]. *)
Theorem resolve_punctuation_aligned (tokenize : string → list string)
    (prompt word : string) :
  aligned (tokenize (Str.lower prompt)) (Str.split (Str.lower prompt)) →
  Str.lower word ∉ Str.split (Str.lower prompt) →
  ((∃ punct, punct ∈ PUNCTS
             ∧ Str.lower word +:+ punct ∈ Str.split (Str.lower prompt)) →
     ∃ k punct,
       find_word_idx (Str.lower prompt) (Str.lower word) = Some k
       ∧ punct ∈ PUNCTS
       ∧ Str.split (Str.lower prompt) !! k = Some (Str.lower word +:+ punct)
       ∧ compute_token_merge_indices tokenize prompt word None = Return [])
  ∧ ((∀ punct, punct ∈ PUNCTS →
        Str.lower word +:+ punct ∉ Str.split (Str.lower prompt)) →
     compute_token_merge_indices tokenize prompt word None =
       Raise (ValueError (not_found_msg (Str.lower word) (Str.lower prompt)))).
Proof.
  intros Hal Hnot. split.
  - intros (punct & Hin & Hfound).
    destruct (find_word_idx (Str.lower prompt) (Str.lower word)) as [k|] eqn:Hf.
    + assert (try_puncts (Str.split (Str.lower prompt)) (Str.lower word) PUNCTS
              = Some k) as Htry.
      { unfold find_word_idx in Hf.
        by rewrite (proj2 (index_None _ _) Hnot) in Hf. }
      apply try_puncts_Some in Htry as (punct' & Hin' & Hk).
      apply index_Some in Hk as [Hk _].
      exists k, punct'. split; [done|]. split; [done|]. split; [done|].
      apply (walk_aligned_miss _ _ _ _ (Z.of_nat k) Hal).
      * unfold resolve_word_idx. by rewrite Hf.
      * intros k' Hk' _. apply Hnot. by apply list_elem_of_lookup_2 in Hk'.
    + apply find_word_idx_None in Hf as [_ Hnone].
      by destruct (Hnone punct Hin).
  - intros Hnone. unfold compute_token_merge_indices, resolve_word_idx.
    by rewrite (proj2 (find_word_idx_None _ _) (conj Hnot Hnone)).
Qed.

Lemma resolve_punctuation_aligned_witness :
  aligned ["a</w>"; "cat!</w>"] (Str.split (Str.lower "a cat!"))
  ∧ (Str.lower "cat" ∉ Str.split (Str.lower "a cat!"))
  ∧ Str.lower "cat" +:+ "!" ∈ Str.split (Str.lower "a cat!")
  ∧ find_word_idx (Str.lower "a cat!") (Str.lower "cat") = Some 1%nat
  ∧ compute_token_merge_indices (λ _, ["a</w>"; "cat!</w>"]) "a cat!" "cat" None
    = Return [].
Proof.
  assert (aligned ["a</w>"; "cat!</w>"] (Str.split (Str.lower "a cat!"))) as Hal.
  { exists [["a</w>"]; ["cat!</w>"]]. split; [reflexivity|].
    change (Str.split (Str.lower "a cat!")) with ["a"; "cat!"].
    constructor; [|constructor; [|constructor]];
      (split; [|reflexivity]); eexists [], _; by repeat split. }
  assert (Str.lower "cat" ∉ Str.split (Str.lower "a cat!")) as Hnot.
  { apply (bool_decide_unpack (_ ∉ _)). vm_compute. exact I. }
  assert (Str.lower "cat" +:+ "!" ∈ Str.split (Str.lower "a cat!")) as Hfound.
  { change (Str.split (Str.lower "a cat!")) with ["a"; "cat!"].
    right. left. }
  split; [exact Hal|]. split; [exact Hnot|]. split; [exact Hfound|].
  split; [reflexivity|].
  destruct (proj1 (resolve_punctuation_aligned (λ _, ["a</w>"; "cat!</w>"])
                     "a cat!" "cat" Hal Hnot))
    as (k & punct & _ & _ & _ & Hret).
  - exists "!". split; [|exact Hfound]. right. right. left.
  - exact Hret.
Defined.

(** ** An explicit index *)

Lemma spell_runs (runs : list (list string)) (words : list string) :
  Forall2 (λ this_run w, word_run this_run ∧ spell this_run = w) runs words →
  spell (concat runs) = join words.
Proof.
  induction 1 as [|this_run w runs words [_ Hspell] _ IH]; [done|].
  simpl. by rewrite spell_app, Hspell, IH.
Qed.

(** With aligned tokens and the index of an occurrence of the word given,
    the call returns the positions, plus one, of the run of that
    occurrence: the tokens before the run spell the words before the
    index, and the tokens of the run spell the word. *)
Theorem resolve_explicit_index (tokenize : string → list string)
    (prompt word : string) (i : nat) :
  aligned (tokenize (Str.lower prompt)) (Str.split (Str.lower prompt)) →
  Str.split (Str.lower prompt) !! i = Some (Str.lower word) →
  ∃ l start n,
    compute_token_merge_indices tokenize prompt word (Some (Z.of_nat i))
      = Return l
    ∧ (∀ k, k ∈ l ↔ (start < k ≤ start + n)%nat)
    ∧ (0 < n)%nat
    ∧ (start + n ≤ length (tokenize (Str.lower prompt)))%nat
    ∧ spell (take start (tokenize (Str.lower prompt)))
        = join (take i (Str.split (Str.lower prompt)))
    ∧ spell (take n (drop start (tokenize (Str.lower prompt))))
        = Str.lower word.
Proof.
  intros (runs & Htok & Hall) Hi.
  pose proof (take_drop_middle _ _ _ Hi) as Hwords.
  pose proof (lookup_lt_Some _ _ _ Hi) as Hlt.
  rewrite <- Hwords in Hall.
  apply Forall2_app_inv_r in Hall as (runs1 & runs' & Hall1 & Hall' & ->).
  apply Forall2_cons_inv_r in Hall' as (this_run & runs2 & [Hrun Hspell] & _ & ->).
  destruct Hrun as (pieces & final & -> & Hfree & Hmark).
  pose proof (Forall2_length _ _ _ Hall1) as Hlen.
  rewrite length_take in Hlen.
  assert (tokenize (Str.lower prompt) =
          concat runs1 ++ (pieces ++ [final]) ++ concat runs2) as Htok'
    by (by rewrite Htok, concat_app).
  exists (S <$> (twice_each (length (concat runs1)) (length pieces)
                   ++ [(length (concat runs1) + length pieces)%nat])),
    (length (concat runs1)), (S (length pieces)).
  split; [|split; [|split; [|split; [|split]]]].
  - unfold compute_token_merge_indices, resolve_word_idx. rewrite Htok'.
    unfold walk_init.
    rewrite (walk_runs_skip _ _ runs1 _ 0 0 (aligned_runs _ _ Hall1))
      by (simpl; lia).
    rewrite (walk_run _ _ _ _ _ _ _ Hfree Hmark). simpl.
    replace (length runs1) with i by lia.
    by rewrite Z.eqb_refl, Hspell, String.eqb_refl.
  - intros k. rewrite list_elem_of_fmap. split.
    + intros (j & -> & Hj). apply elem_of_app in Hj as [Hj|Hj].
      * apply elem_of_twice_each in Hj. lia.
      * apply list_elem_of_singleton in Hj. lia.
    + intros Hk. exists (pred k). split; [lia|].
      destruct (decide (pred k = length (concat runs1) + length pieces)%nat)
        as [->|Hne].
      * apply elem_of_app. right. by apply list_elem_of_singleton.
      * apply elem_of_app. left. apply elem_of_twice_each. lia.
  - lia.
  - rewrite Htok', !length_app. simpl. lia.
  - rewrite Htok', take_app_length. by apply spell_runs.
  - rewrite Htok', drop_app_length.
    rewrite take_app_length' by (rewrite length_app; simpl; lia).
    exact Hspell.
Qed.

Lemma resolve_explicit_index_witness :
  Str.split (Str.lower "a cat") !! 1%nat = Some (Str.lower "Cat")
  ∧ ∃ l start n,
      compute_token_merge_indices (λ _, ["a</w>"; "cat</w>"]) "a cat" "Cat"
        (Some 1%Z) = Return l
      ∧ (∀ k, k ∈ l ↔ (start < k ≤ start + n)%nat)
      ∧ spell (take start ["a</w>"; "cat</w>"]) = "a"
      ∧ spell (take n (drop start ["a</w>"; "cat</w>"])) = "cat".
Proof.
  split; [reflexivity|].
  destruct (resolve_explicit_index (λ _, ["a</w>"; "cat</w>"]) "a cat" "Cat"
              1%nat aligned_a_cat eq_refl)
    as (l & start & n & Hl & Hbuf & _ & _ & Hbefore & Hword).
  by exists l, start, n.
Defined.

(** ** When the call raises, and what it ignores *)

(** The only error of a call is the failed search: a call that is given
    an index never raises, and a call without one raises only when
    neither the lower-cased word nor that word followed by one of the four
    marks is a word of the lower-cased prompt. *)
Theorem resolve_raises_only_not_found (tokenize : string → list string)
    (prompt word : string) (word_idx : option Z) (e : exn) :
  compute_token_merge_indices tokenize prompt word word_idx = Raise e →
  word_idx = None
  ∧ e = ValueError (not_found_msg (Str.lower word) (Str.lower prompt))
  ∧ (Str.lower word ∉ Str.split (Str.lower prompt))
  ∧ (∀ punct, punct ∈ PUNCTS →
       Str.lower word +:+ punct ∉ Str.split (Str.lower prompt)).
Proof.
  intros Hraise.
  destruct (word_found _ _ _ _ _ Hraise) as (-> & Hw & Hp).
  split; [done|]. split; [|done].
  unfold compute_token_merge_indices, resolve_word_idx in Hraise.
  rewrite (proj2 (find_word_idx_None _ _) (conj Hw Hp)) in Hraise.
  by injection Hraise as <-.
Qed.

Lemma resolve_raises_only_not_found_witness :
  compute_token_merge_indices (λ _, ["a</w>"; "cat</w>"]) "a cat" "dog" None
    = Raise (ValueError (not_found_msg "dog" "a cat"))
  ∧ (Str.lower "dog" ∉ Str.split (Str.lower "a cat")).
Proof.
  assert (compute_token_merge_indices (λ _, ["a</w>"; "cat</w>"]) "a cat" "dog"
            None = Raise (ValueError (not_found_msg "dog" "a cat"))) as Hraise
    by (vm_compute; reflexivity).
  split; [exact Hraise|].
  exact (proj1 (proj2 (proj2
    (resolve_raises_only_not_found _ _ _ _ _ Hraise)))).
Defined.

Lemma lower_char_idem (c : ascii) :
  Str.lower_char (Str.lower_char c) = Str.lower_char c.
Proof. by destruct c as [[] [] [] [] [] [] [] []]. Qed.

Lemma lower_idem (s : string) : Str.lower (Str.lower s) = Str.lower s.
Proof.
  induction s as [|c s IH]; [done|]. simpl. by rewrite lower_char_idem, IH.
Qed.

(** * Further properties of the experiment record *)

(** ** File names written and read back *)

Lemma prefix_nil (s : string) : String.prefix EmptyString s = true.
Proof. by destruct s. Qed.

Lemma prefix_cons (a b : ascii) (s t : string) :
  String.prefix (String a s) (String b t) =
  if ascii_dec a b then String.prefix s t else false.
Proof. reflexivity. Qed.

Lemma contains_cons (sub : string) (c : ascii) (s : string) :
  Str.contains sub (String c s) =
  if String.prefix sub (String c s) then true else Str.contains sub s.
Proof. reflexivity. Qed.

Lemma str_before_cons (sep : string) (c : ascii) (s : string) :
  str_before sep (String c s) =
  if String.prefix sep (String c s) then EmptyString
  else String c (str_before sep s).
Proof. reflexivity. Qed.

Lemma prefix_app (s t : string) : String.prefix s (s +:+ t) = true.
Proof.
  induction s as [|c s IH].
  - apply prefix_nil.
  - rewrite append_cons, prefix_cons. by destruct (ascii_dec c c).
Qed.

Lemma no_dot_cons (c : ascii) (s : string) :
  no_dot (String c s) → c ≠ "."%char ∧ no_dot s.
Proof.
  unfold no_dot. rewrite contains_cons, prefix_cons, prefix_nil.
  destruct (ascii_dec "." c) as [<-|Hne]; [done|].
  intros Hs. split; [congruence|done].
Qed.

Lemma lower_char_dot (c : ascii) :
  Str.lower_char c = "."%char → c = "."%char.
Proof. by destruct c as [[] [] [] [] [] [] [] []]. Qed.

Lemma no_dot_lower (s : string) : no_dot s → no_dot (Str.lower s).
Proof.
  induction s as [|c s IH]; [done|].
  intros [Hc Hs]%no_dot_cons. unfold no_dot.
  change (Str.lower (String c s)) with (String (Str.lower_char c) (Str.lower s)).
  rewrite contains_cons, prefix_cons, prefix_nil.
  destruct (ascii_dec "." (Str.lower_char c)) as [Heq|_].
  - exfalso. apply Hc. by apply lower_char_dot.
  - by apply IH.
Qed.

(** A separator that starts with a dot is first met, in a text that
    starts with a dotless string followed by the separator, right after
    that string. *)
Lemma str_before_dotless (sep' w rest : string) :
  no_dot w →
  str_before (String "." sep') (w +:+ String "." sep' +:+ rest) = w.
Proof.
  induction w as [|c w IH]; intros Hw.
  - change (EmptyString +:+ String "." sep' +:+ rest)
      with (String "." sep' +:+ rest).
    rewrite append_cons, str_before_cons, <- append_cons.
    by rewrite prefix_app.
  - apply no_dot_cons in Hw as [Hc Hw].
    rewrite append_cons, str_before_cons, prefix_cons.
    destruct (ascii_dec "." c) as [Heq|_]; [by destruct Hc|].
    by rewrite IH.
Qed.

Lemma gt_word_of_name (name : string) :
  no_dot name → gt_word (gt_file_name name) = Str.lower name.
Proof.
  intros Hname. unfold gt_word, gt_file_name.
  change ".gt.png" with (String "." "gt.png").
  rewrite <- (append_nil_r (String "." "gt.png")) at 2.
  rewrite (str_before_dotless _ _ _ (no_dot_lower _ Hname)).
  apply lower_idem.
Qed.

(** *** Paths *)

Lemma has_char_cons (c c' : ascii) (s : string) :
  has_char c (String c' s) = if ascii_dec c c' then true else has_char c s.
Proof. reflexivity. Qed.

Lemma has_char_app (c : ascii) (s t : string) :
  has_char c (s +:+ t) = has_char c s || has_char c t.
Proof.
  induction s as [|c' s IH]; [done|].
  rewrite append_cons, !has_char_cons. by destruct (ascii_dec c c').
Qed.

Lemma path_name_from_cons (name : string) (c : ascii) (rest : string) :
  path_name_from name (String c rest) =
  if ascii_dec c "/" then path_name_from EmptyString rest
  else path_name_from (name +:+ String c EmptyString) rest.
Proof. reflexivity. Qed.

Lemma glob_items_cons (c : ascii) (rest : string) :
  glob_items (String c rest) =
  if ascii_dec c "[" then None
  else
    match glob_items rest with
    | None => None
    | Some items =>
        if ascii_dec c "*" then
          match items with
          | glob_star :: _ => None
          | _ => Some (glob_star :: items)
          end
        else if ascii_dec c "?" then Some (glob_any :: items)
        else Some (glob_char c :: items)
    end.
Proof. reflexivity. Qed.

Lemma items_match_char (c c' : ascii) (rest : list glob_item) (name : string) :
  items_match (glob_char c :: rest) (String c' name) =
  if ascii_dec c c' then items_match rest name else false.
Proof. reflexivity. Qed.

Lemma items_match_star_cons (c : ascii) (rest : list glob_item) (name : string) :
  items_match (glob_star :: rest) (String c name) =
  items_match rest (String c name) || items_match (glob_star :: rest) name.
Proof. reflexivity. Qed.

Lemma lower_char_slash (c : ascii) :
  Str.lower_char c = "/"%char → c = "/"%char.
Proof. by destruct c as [[] [] [] [] [] [] [] []]. Qed.

Lemma no_slash_lower (s : string) : no_slash s → no_slash (Str.lower s).
Proof.
  unfold no_slash. induction s as [|c s IH]; [done|].
  change (Str.lower (String c s)) with (String (Str.lower_char c) (Str.lower s)).
  rewrite !has_char_cons.
  destruct (ascii_dec "/" c) as [|Hc]; [done|]. intros Hs.
  destruct (ascii_dec "/" (Str.lower_char c)) as [Heq|_]; [|by apply IH].
  exfalso. apply Hc. symmetry. by apply lower_char_slash.
Qed.

Lemma path_name_from_component (name file : string) :
  no_slash file → path_name_from name file = name +:+ file.
Proof.
  unfold no_slash. revert name. induction file as [|c file IH]; intros name.
  - by rewrite append_nil_r.
  - rewrite has_char_cons, path_name_from_cons.
    destruct (ascii_dec "/" c) as [|Hc]; [done|]. intros Hfile.
    destruct (ascii_dec c "/") as [->|_]; [done|].
    rewrite (IH _ Hfile). by rewrite append_assoc.
Qed.

Lemma path_name_from_join (name path file : string) :
  path_name_from name (path_join path file) = path_name_from EmptyString file.
Proof.
  unfold path_join. revert name. induction path as [|c path IH]; intros name.
  - done.
  - rewrite append_cons, path_name_from_cons. by destruct (ascii_dec c "/").
Qed.

(** The name of a file written under a path is the name it was given,
    when that name has no slash. *)
Lemma path_name_join (path file : string) :
  no_slash file → path_name (path_join path file) = file.
Proof.
  intros Hfile. unfold path_name.
  by rewrite path_name_from_join, path_name_from_component.
Qed.

(** *** Patterns *)

Lemma glob_literal_app (s t : string) :
  glob_literal s → glob_literal t → glob_literal (s +:+ t).
Proof.
  unfold glob_literal. rewrite !has_char_app.
  by intros (-> & -> & ->) (-> & -> & ->).
Qed.

Lemma glob_literal_cons (c : ascii) (s : string) :
  glob_literal (String c s) →
  (c ≠ "*"%char ∧ c ≠ "?"%char ∧ c ≠ "["%char) ∧ glob_literal s.
Proof.
  unfold glob_literal. rewrite !has_char_cons.
  destruct (ascii_dec "*" c) as [|H1]; [by intros [? _]|].
  destruct (ascii_dec "?" c) as [|H2]; [by intros (_ & ? & _)|].
  destruct (ascii_dec "[" c) as [|H3]; [by intros (_ & _ & ?)|].
  intros H. split; [|done]. by repeat split; intros ->.
Qed.

(** A pattern without wildcards matches itself, also after a star and any
    text. *)
Lemma glob_items_literal (s : string) :
  glob_literal s →
  ∃ items,
    glob_items s = Some items
    ∧ items_match items s = true
    ∧ (∀ rest, items ≠ glob_star :: rest).
Proof.
  induction s as [|c s IH]; intros Hs.
  - by exists [].
  - apply glob_literal_cons in Hs as [(H1 & H2 & H3) Hs].
    destruct (IH Hs) as (items & Hitems & Hmatch & _).
    exists (glob_char c :: items). rewrite glob_items_cons, Hitems.
    destruct (ascii_dec c "[") as [|_]; [done|].
    destruct (ascii_dec c "*") as [|_]; [done|].
    destruct (ascii_dec c "?") as [|_]; [done|].
    split; [done|]. split; [|done].
    rewrite items_match_char. by destruct (ascii_dec c c).
Qed.

Lemma items_match_star (items : list glob_item) (before name : string) :
  items_match items name = true →
  items_match (glob_star :: items) (before +:+ name) = true.
Proof.
  intros Hname. induction before as [|c before IH].
  - change (EmptyString +:+ name) with name.
    destruct name; [by simpl; rewrite Hname|].
    by rewrite items_match_star_cons, Hname.
  - rewrite append_cons, items_match_star_cons, IH. apply orb_true_r.
Qed.

Lemma glob_match_star (suffix before : string) :
  glob_literal suffix →
  glob_match (String "*" suffix) (before +:+ suffix) = Some true.
Proof.
  intros Hsuffix.
  destruct (glob_items_literal suffix Hsuffix) as (items & Hitems & Hmatch & Hstar).
  unfold glob_match.
  assert (glob_items (String "*" suffix) = Some (glob_star :: items)) as ->.
  { rewrite glob_items_cons, Hitems.
    destruct (ascii_dec "*" "[") as [|_]; [done|].
    destruct (ascii_dec "*" "*") as [_|]; [|done].
    destruct items as [|[] items]; try done. by destruct (Hstar items). }
  by rewrite items_match_star.
Qed.

(** The label of a ground-truth mask survives the file.  For a label
    without a dot and without a slash, the file that [save] names after
    it under a path has the name it was given, that name matches the
    pattern [_load_truth_masks] looks for, and the label read back from
    it is the lower-cased label. *)
Theorem gt_name_round_trip (path name : string) :
  no_dot name → no_slash name →
  path_name (path_join path (gt_file_name name)) = gt_file_name name
  ∧ glob_match "*.gt.png" (gt_file_name name) = Some true
  ∧ gt_word (path_name (path_join path (gt_file_name name))) = Str.lower name.
Proof.
  intros Hdot Hslash.
  assert (path_name (path_join path (gt_file_name name)) = gt_file_name name)
    as Hname.
  { apply path_name_join. unfold no_slash, gt_file_name.
    rewrite has_char_app. by rewrite (no_slash_lower _ Hslash). }
  split; [exact Hname|]. split.
  - by apply (glob_match_star ".gt.png").
  - rewrite Hname. by apply gt_word_of_name.
Qed.

Lemma gt_name_round_trip_witness :
  no_dot "Traffic light" ∧ no_slash "Traffic light"
  ∧ path_join "out/7" (gt_file_name "Traffic light")
    = "out/7/traffic light.gt.png"
  ∧ glob_match "*.gt.png" (gt_file_name "Traffic light") = Some true
  ∧ gt_word (path_name (path_join "out/7" (gt_file_name "Traffic light")))
    = "traffic light".
Proof.
  split; [reflexivity|]. split; [reflexivity|]. split; [reflexivity|].
  exact (proj2 (gt_name_round_trip "out/7" "Traffic light" eq_refl eq_refl)).
Defined.

Lemma pred_word_of_name (word pred_prefix : string) :
  no_dot word →
  pred_word pred_prefix (pred_file_name word pred_prefix) = Str.lower word.
Proof.
  intros Hword. unfold pred_word, pred_file_name.
  change ("." +:+ pred_prefix +:+ ".pred")
    with (String "." (pred_prefix +:+ ".pred")).
  assert ("." +:+ pred_prefix +:+ ".pred.png" =
          String "." (pred_prefix +:+ ".pred") +:+ ".png") as ->.
  { change ("." +:+ pred_prefix +:+ ".pred.png")
      with (String "." (pred_prefix +:+ ".pred.png")).
    rewrite append_cons, append_assoc. reflexivity. }
  rewrite (str_before_dotless _ _ _ (no_dot_lower _ Hword)).
  apply lower_idem.
Qed.

(** The same for a predicted mask.  For a label without a dot and
    without a slash, and a prefix without a slash and without the
    characters a pattern reads as wildcards, the file that
    [save_prediction_mask] names after them under a path has the name it
    was given, that name matches the pattern [_load_pred_masks] looks for
    with that prefix, and the label read back from it is the lower-cased
    label. *)
Theorem pred_name_round_trip (path word pred_prefix : string) :
  no_dot word → no_slash word →
  no_slash pred_prefix → glob_literal pred_prefix →
  path_name (path_join path (pred_file_name word pred_prefix))
    = pred_file_name word pred_prefix
  ∧ glob_match ("*." +:+ pred_prefix +:+ ".pred.png")
      (pred_file_name word pred_prefix) = Some true
  ∧ pred_word pred_prefix
      (path_name (path_join path (pred_file_name word pred_prefix)))
    = Str.lower word.
Proof.
  intros Hdot Hslash Hpslash Hplit.
  assert (path_name (path_join path (pred_file_name word pred_prefix))
          = pred_file_name word pred_prefix) as Hname.
  { apply path_name_join. unfold no_slash, pred_file_name.
    rewrite !has_char_app. rewrite (no_slash_lower _ Hslash).
    unfold no_slash in Hpslash. by rewrite Hpslash. }
  split; [exact Hname|]. split.
  - unfold pred_file_name.
    apply (glob_match_star ("." +:+ pred_prefix +:+ ".pred.png")).
    apply (glob_literal_app "."); [done|]. by apply glob_literal_app.
  - rewrite Hname. by apply pred_word_of_name.
Qed.

Lemma pred_name_round_trip_witness :
  no_dot "Cat" ∧ no_slash "Cat" ∧ no_slash "daam" ∧ glob_literal "daam"
  ∧ path_join "out/7" (pred_file_name "Cat" "daam") = "out/7/cat.daam.pred.png"
  ∧ glob_match ("*." +:+ "daam" +:+ ".pred.png") (pred_file_name "Cat" "daam")
    = Some true
  ∧ pred_word "daam" (path_name (path_join "out/7" (pred_file_name "Cat" "daam")))
    = "cat".
Proof.
  split; [reflexivity|]. split; [reflexivity|]. split; [reflexivity|].
  split; [by repeat split|]. split; [reflexivity|].
  refine (proj2 (pred_name_round_trip "out/7" "Cat" "daam" eq_refl eq_refl
                   eq_refl _)).
  by repeat split.
Defined.

(** A label with a dot need not survive: the separator is first met
    inside the label. *)
Example dotted_names_are_cut :
  gt_word (gt_file_name "a.gt.png") = "a"
  ∧ pred_word "pred" (pred_file_name "x.pred" "pred") = "x".
Proof. split; reflexivity. Qed.

(** ** The remapping *)

Lemma coco_values :
  map_Forall (λ _ v, COCO80_TO_27 !! v = None ∧ Str.lower v = v) COCO80_TO_27.
Proof. apply (bool_decide_unpack _). vm_compute. exact I. Qed.

(** Remapping twice is remapping once: no coarse label of the table is
    one of its keys. *)
Theorem coarsen_idempotent (simplify80 : bool) (word : string) :
  coarsen simplify80 (coarsen simplify80 word) = coarsen simplify80 word.
Proof.
  destruct simplify80; [|done]. unfold coarsen, dict_get.
  destruct (COCO80_TO_27 !! word) as [v|] eqn:Hw.
  - by rewrite (proj1 (coco_values _ _ Hw)).
  - by rewrite Hw.
Qed.

Lemma coarsen_absent_any (simplify80 : bool) (word : string) :
  COCO80_TO_27 !! word = None → coarsen simplify80 word = word.
Proof.
  intros Habs. destruct simplify80; [|done].
  unfold coarsen, dict_get. by rewrite Habs.
Qed.

(** Remapping keeps a label in lower case in lower case. *)
Lemma coarsen_lower (simplify80 : bool) (word : string) :
  Str.lower word = word →
  Str.lower (coarsen simplify80 word) = coarsen simplify80 word.
Proof.
  intros Hlow. destruct simplify80; [|done]. unfold coarsen, dict_get.
  destruct (COCO80_TO_27 !! word) as [v|] eqn:Hw; [|done].
  exact (proj2 (coco_values _ _ Hw)).
Qed.

(** ** Binary masks *)

Lemma clamp_zero_zero : clamp_elem 0 1 (f32_add 0 0) = 0%f32.
Proof. reflexivity. Qed.

Lemma clamp_zero_one : clamp_elem 0 1 (f32_add 0 1) = 1%f32.
Proof. reflexivity. Qed.

Lemma clamp_one_zero : clamp_elem 0 1 (f32_add 1 0) = 1%f32.
Proof. reflexivity. Qed.

Lemma clamp_one_one : clamp_elem 0 1 (f32_add 1 1) = 1%f32.
Proof. reflexivity. Qed.

Lemma zero_ne_one : (0 : f32)%f32 ≠ 1%f32.
Proof. done. Qed.

Section binary_facts.
Context {rows cols : nat}.
Implicit Types a b old t : Tensor rows cols.

(** The clamped sum of two binary masks, pixel by pixel: 1 where one of
    them is 1, 0 where both are 0. *)
Lemma clamp_add_binary a b (i : fin rows) (j : fin cols) :
  binary a → binary b →
  ((clamp 0 1 (tensor_add a b) !!! i) !!! j = 1%f32
   ∧ ((a !!! i) !!! j = 1%f32 ∨ (b !!! i) !!! j = 1%f32))
  ∨ ((clamp 0 1 (tensor_add a b) !!! i) !!! j = 0%f32
     ∧ (a !!! i) !!! j = 0%f32 ∧ (b !!! i) !!! j = 0%f32).
Proof.
  intros Ha Hb. rewrite clamp_lookup, tensor_add_lookup.
  destruct (Ha i j) as [-> | ->], (Hb i j) as [-> | ->].
  - right. by rewrite clamp_zero_zero.
  - left. rewrite clamp_zero_one. split; [done|by right].
  - left. rewrite clamp_one_zero. split; [done|by left].
  - left. rewrite clamp_one_one. split; [done|by left].
Qed.

Lemma clamp_add_is_binary a b :
  binary a → binary b → binary (clamp 0 1 (tensor_add a b)).
Proof.
  intros Ha Hb i j.
  destruct (clamp_add_binary a b i j Ha Hb) as [[-> _]|[-> _]]; auto.
Qed.

(** On binary masks no sum is rounded, and a third mask can be merged
    before or after a second one. *)
Lemma clamp_add_swap old a b :
  binary old → binary a → binary b →
  clamp 0 1 (tensor_add (clamp 0 1 (tensor_add old a)) b) =
  clamp 0 1 (tensor_add (clamp 0 1 (tensor_add old b)) a).
Proof.
  intros Hold Ha Hb. apply tensor_ext. intros i j.
  rewrite !clamp_lookup, !tensor_add_lookup, !clamp_lookup, !tensor_add_lookup.
  by destruct (Hold i j) as [-> | ->], (Ha i j) as [-> | ->],
    (Hb i j) as [-> | ->].
Qed.
End binary_facts.

(** ** The loaders *)

Section loader_facts.
Context {rows cols : nat}.
Implicit Types σ : gmap dref (gmap string (Tensor rows cols)).
Implicit Types d : gmap string (Tensor rows cols).
Implicit Types files items : list (string * Tensor rows cols).

(** A call for a label in lower case, on a dict object, is [accumulate]
    on its contents. *)
Lemma add_mask_accumulate masks word mask s σ d :
  σ !! masks = Some d →
  Str.lower (coarsen s word) = coarsen s word →
  _add_mask masks word mask s σ =
    Some (Return masks, <[masks := accumulate d (coarsen s word, mask)]> σ).
Proof.
  intros Hd Hlow. rewrite (add_mask_run _ _ _ _ _ _ Hd). unfold accumulate.
  simpl. rewrite Hlow. by destruct (d !! coarsen s word).
Qed.

Lemma accumulate_dom d item : dom (accumulate d item) = {[item.1]} ∪ dom d.
Proof.
  unfold accumulate. destruct (d !! item.1); by rewrite dom_insert_L.
Qed.

Lemma accumulate_lower_keys d item :
  lower_keys d → Str.lower item.1 = item.1 → lower_keys (accumulate d item).
Proof.
  intros Hkeys Hlow k Hk. apply elem_of_dom in Hk.
  rewrite accumulate_dom in Hk.
  apply elem_of_union in Hk as [->%elem_of_singleton|Hk]; [done|].
  by apply Hkeys, elem_of_dom.
Qed.

Lemma accumulate_in_unit d item :
  masks_in_unit d → in_unit item.2 → masks_in_unit (accumulate d item).
Proof.
  intros Hd Hm k t. unfold accumulate.
  destruct (d !! item.1) as [old|] eqn:Hold;
    (destruct (decide (k = item.1)) as [->|Hne];
     [rewrite lookup_insert_eq|rewrite lookup_insert_ne by done; apply Hd]).
  - intros [= <-]. apply clamp_add_in_unit; [by apply (Hd _ _ Hold)|done].
  - by intros [= <-].
Qed.

Lemma foldl_accumulate_dom items d :
  dom (foldl accumulate d items) = dom d ∪ list_to_set items.*1.
Proof.
  revert d. induction items as [|item items IH]; intros d; simpl.
  - by rewrite (right_id_L ∅ (∪)).
  - rewrite IH, accumulate_dom.
    by rewrite (comm_L (∪) {[item.1]} (dom d)), <- (assoc_L (∪)).
Qed.

Lemma foldl_accumulate_lower_keys items d :
  lower_keys d →
  Forall (λ item, Str.lower item.1 = item.1) items →
  lower_keys (foldl accumulate d items).
Proof.
  intros Hd Hall. revert d Hd.
  induction Hall as [|item items Hitem _ IH]; intros d Hd; [done|].
  simpl. apply IH. by apply accumulate_lower_keys.
Qed.

Lemma foldl_accumulate_in_unit items d :
  masks_in_unit d →
  Forall (λ item, in_unit item.2) items →
  masks_in_unit (foldl accumulate d items).
Proof.
  intros Hd Hall. revert d Hd.
  induction Hall as [|item items Hitem _ IH]; intros d Hd; [done|].
  simpl. apply IH. by apply accumulate_in_unit.
Qed.

(** The loop of a loader never raises when the labels it reads are in
    lower case and so are the keys of the dict: it folds [accumulate]
    over the files. *)
Lemma for_files_run (word_of : string → string) masks files s σ d :
  σ !! masks = Some d →
  lower_keys d →
  (∀ file_name, Str.lower (word_of file_name) = word_of file_name) →
  for_files word_of masks files s σ =
    Some (Return (), <[masks := foldl accumulate d (labelled s word_of files)]> σ).
Proof.
  intros Hd Hkeys Hlow. revert σ d Hd Hkeys.
  induction files as [|[file_name mask] files IH]; intros σ d Hd Hkeys.
  - simpl. unfold py_ret. by rewrite insert_id.
  - simpl. unfold py_bind.
    rewrite (add_mask_accumulate _ _ _ _ _ _ Hd)
      by apply coarsen_lower, Hlow.
    rewrite (IH _ (accumulate d (coarsen s (word_of file_name), mask))).
    + by rewrite insert_insert_eq.
    + apply lookup_insert_eq.
    + apply accumulate_lower_keys; [done|]. apply coarsen_lower, Hlow.
Qed.

Lemma load_run (word_of : string → string) files s σ :
  (∀ file_name, Str.lower (word_of file_name) = word_of file_name) →
  (do masks ← dict_new then
   exec for_files word_of masks files s then
   py_ret masks) σ =
  Some (Return (fresh (dom σ)),
        <[fresh (dom σ) := foldl accumulate ∅ (labelled s word_of files)]> σ).
Proof.
  intros Hlow. unfold py_bind, dict_new. simpl.
  rewrite (for_files_run word_of _ files s _ ∅);
    [|apply lookup_insert_eq|by intros k [? ?]|done].
  by rewrite insert_insert_eq.
Qed.

Lemma gt_word_lower file_name : Str.lower (gt_word file_name) = gt_word file_name.
Proof. apply lower_idem. Qed.

Lemma pred_word_lower pred_prefix file_name :
  Str.lower (pred_word pred_prefix file_name) = pred_word pred_prefix file_name.
Proof. apply lower_idem. Qed.

Lemma labelled_lower (word_of : string → string) s files :
  (∀ file_name, Str.lower (word_of file_name) = word_of file_name) →
  Forall (λ item : string * Tensor rows cols, Str.lower item.1 = item.1)
    (labelled s word_of files).
Proof.
  intros Hlow. apply Forall_fmap, Forall_forall. intros file _. simpl.
  apply coarsen_lower, Hlow.
Qed.

(** [_load_truth_masks] never raises, whatever files it finds.  It
    returns a dict object that is new to the store and leaves the other
    dict objects alone; the keys of the dict are the labels read off the
    file names, remapped if asked, and all of them are in lower case. *)
Theorem load_truth_masks_returns files s σ :
  ∃ r d,
    _load_truth_masks files s σ = Some (Return r, <[r := d]> σ)
    ∧ σ !! r = None
    ∧ dom d = list_to_set ((λ file, coarsen s (gt_word file.1)) <$> files)
    ∧ lower_keys d.
Proof.
  exists (fresh (dom σ)), (foldl accumulate ∅ (labelled s gt_word files)).
  split; [apply load_run, gt_word_lower|].
  split; [apply not_elem_of_dom, is_fresh|]. split.
  - rewrite foldl_accumulate_dom, dom_empty_L, (left_id_L ∅ (∪)).
    unfold labelled. by rewrite <- list_fmap_compose.
  - apply foldl_accumulate_lower_keys; [by intros k [? ?]|].
    apply labelled_lower, gt_word_lower.
Qed.

(** The same for [_load_pred_masks] on the files of a prefix. *)
Theorem load_pred_masks_returns pred_prefix files s σ :
  ∃ r d,
    _load_pred_masks_files pred_prefix files s σ = Some (Return r, <[r := d]> σ)
    ∧ σ !! r = None
    ∧ dom d = list_to_set
                ((λ file, coarsen s (pred_word pred_prefix file.1)) <$> files)
    ∧ lower_keys d.
Proof.
  exists (fresh (dom σ)),
    (foldl accumulate ∅ (labelled s (pred_word pred_prefix) files)).
  split; [apply load_run, pred_word_lower|].
  split; [apply not_elem_of_dom, is_fresh|]. split.
  - rewrite foldl_accumulate_dom, dom_empty_L, (left_id_L ∅ (∪)).
    unfold labelled. by rewrite <- list_fmap_compose.
  - apply foldl_accumulate_lower_keys; [by intros k [? ?]|].
    apply labelled_lower, pred_word_lower.
Qed.

Lemma accumulate_binary d item :
  masks_binary d → binary item.2 → masks_binary (accumulate d item).
Proof.
  intros Hd Hm k t. unfold accumulate.
  destruct (d !! item.1) as [old|] eqn:Hold;
    (destruct (decide (k = item.1)) as [->|Hne];
     [rewrite lookup_insert_eq|rewrite lookup_insert_ne by done; apply Hd]).
  - intros [= <-]. apply clamp_add_is_binary; [by apply (Hd _ _ Hold)|done].
  - by intros [= <-].
Qed.

Lemma accumulate_swap d (x y : string * Tensor rows cols) :
  masks_binary d → binary x.2 → binary y.2 →
  accumulate (accumulate d x) y = accumulate (accumulate d y) x.
Proof.
  intros Hd Hx Hy. destruct x as [k1 a], y as [k2 b]. unfold accumulate.
  simpl in *. destruct (decide (k1 = k2)) as [->|Hne].
  - destruct (d !! k2) as [old|] eqn:Hk.
    + rewrite !lookup_insert_eq, !insert_insert_eq.
      by rewrite (clamp_add_swap old a b (Hd _ _ Hk) Hx Hy).
    + rewrite !lookup_insert_eq, !insert_insert_eq.
      by rewrite (tensor_add_comm a b).
  - destruct (d !! k1) as [old1|] eqn:Hk1, (d !! k2) as [old2|] eqn:Hk2;
      rewrite !lookup_insert_ne by done; rewrite ?Hk1, ?Hk2;
      by apply insert_insert_ne.
Qed.

Lemma foldl_accumulate_perm items items' d :
  items ≡ₚ items' →
  masks_binary d →
  Forall (λ item, binary item.2) items →
  foldl accumulate d items = foldl accumulate d items'.
Proof.
  intros Hperm. revert d.
  induction Hperm as [|x l l' _ IH|x y l|l l' l'' Hp1 IH1 Hp2 IH2];
    intros d Hd Hall.
  - done.
  - apply Forall_cons in Hall as [Hx Hall]. simpl.
    apply IH; [by apply accumulate_binary|done].
  - apply Forall_cons in Hall as [Hy Hall].
    apply Forall_cons in Hall as [Hx Hall]. simpl.
    by rewrite (accumulate_swap d y x).
  - rewrite IH1 by done. apply IH2; [done|]. by rewrite <- Hp1.
Qed.

(** The order in which the files are found does not matter when the
    masks read from them are binary: both loaders leave the same store
    and return the same dict for any two orders of the same files. *)
Theorem load_order_irrelevant pred_prefix files files' s σ :
  files ≡ₚ files' →
  Forall (λ file, binary file.2) files →
  _load_truth_masks files s σ = _load_truth_masks files' s σ
  ∧ _load_pred_masks_files pred_prefix files s σ =
    _load_pred_masks_files pred_prefix files' s σ.
Proof.
  intros Hperm Hall.
  assert (∀ word_of,
    foldl accumulate ∅ (labelled s word_of files) =
    foldl accumulate ∅ (labelled s word_of files')) as Heq.
  { intros word_of. apply foldl_accumulate_perm.
    - unfold labelled. by apply fmap_Permutation.
    - by intros k t ?.
    - unfold labelled. apply Forall_fmap.
      eapply Forall_impl; [exact Hall|]. by intros file ?. }
  unfold _load_truth_masks, _load_pred_masks_files.
  rewrite !(load_run gt_word) by apply gt_word_lower.
  rewrite !(load_run (pred_word pred_prefix)) by apply pred_word_lower.
  by rewrite !Heq.
Qed.

(** Masks that lie in the interval from 0 to 1 give a dict whose masks
    all lie in it, for both loaders. *)
Theorem load_masks_in_unit pred_prefix files s σ :
  Forall (λ file, in_unit file.2) files →
  ∃ r d d',
    _load_truth_masks files s σ = Some (Return r, <[r := d]> σ)
    ∧ _load_pred_masks_files pred_prefix files s σ
      = Some (Return r, <[r := d']> σ)
    ∧ masks_in_unit d ∧ masks_in_unit d'.
Proof.
  intros Hall.
  exists (fresh (dom σ)), (foldl accumulate ∅ (labelled s gt_word files)),
    (foldl accumulate ∅ (labelled s (pred_word pred_prefix) files)).
  split; [apply load_run, gt_word_lower|].
  split; [apply load_run, pred_word_lower|].
  split; (apply foldl_accumulate_in_unit; [by intros k t ?|]);
    unfold labelled; apply Forall_fmap;
    (eapply Forall_impl; [exact Hall|]); by intros file ?.
Qed.

End loader_facts.

(** ** Concrete loads *)

Lemma pixels_in_unit :
  Forall (λ file : string * Tensor 1 1, in_unit file.2)
    [("cat.gt.png", pixel 1); ("Dog.gt.png", pixel 0)].
Proof.
  constructor; [apply pixel_in_unit, one_unit|].
  constructor; [apply pixel_in_unit, zero_unit|constructor].
Qed.

Lemma pixel_binary (q : f32) : q = 0%f32 ∨ q = 1%f32 → binary (pixel q).
Proof.
  intros Hq i j. inv_fin i; [|intros i; inv_fin i].
  inv_fin j; [|intros j; inv_fin j]. exact Hq.
Qed.

Lemma pixels_binary :
  Forall (λ file : string * Tensor 1 1, binary file.2)
    [("car.gt.png", pixel 1); ("bus.gt.png", pixel 0)].
Proof.
  constructor; [apply pixel_binary; by right|].
  constructor; [apply pixel_binary; by left|constructor].
Qed.

(** The masks of "car" and of "bus" are merged under "vehicle", in
    either order. *)
Lemma load_order_irrelevant_witness :
  [("car.gt.png", pixel 1); ("bus.gt.png", pixel 0)]
    ≡ₚ [("bus.gt.png", pixel 0); ("car.gt.png", pixel 1)]
  ∧ coarsen true (gt_word "car.gt.png") = coarsen true (gt_word "bus.gt.png")
  ∧ _load_truth_masks [("car.gt.png", pixel 1); ("bus.gt.png", pixel 0)] true ∅
    = _load_truth_masks [("bus.gt.png", pixel 0); ("car.gt.png", pixel 1)] true ∅.
Proof.
  split; [apply perm_swap|]. split; [by vm_compute|].
  apply (load_order_irrelevant "daam" _ _ true ∅ (perm_swap _ _ _)
           pixels_binary).
Defined.

Lemma load_masks_in_unit_witness :
  ∃ r d,
    _load_truth_masks [("cat.gt.png", pixel 1); ("Dog.gt.png", pixel 0)] true ∅
      = Some (Return r, <[r := d]> ∅)
    ∧ masks_in_unit d.
Proof.
  destruct (load_masks_in_unit "daam" _ true ∅ pixels_in_unit)
    as (r & d & d' & Hrun & _ & Hd & _).
  by exists r, d.
Defined.

(** ** What a loaded dict holds *)

Section loaded_contents.
Context {rows cols : nat}.
Implicit Types d : gmap string (Tensor rows cols).
Implicit Types items files : list (string * Tensor rows cols).
Implicit Types t u m : Tensor rows cols.

Lemma masks_of_snoc_eq items k m :
  masks_of k (items ++ [(k, m)]) = masks_of k items ++ [m].
Proof.
  unfold masks_of. rewrite filter_app, fmap_app.
  by rewrite (filter_cons_True _ (k, m)).
Qed.

Lemma masks_of_snoc_ne items k item :
  item.1 ≠ k → masks_of k (items ++ [item]) = masks_of k items.
Proof.
  intros Hne. unfold masks_of. rewrite filter_app, fmap_app.
  rewrite (filter_cons_False _ item) by done. by rewrite app_nil_r.
Qed.

(** Folding [accumulate] over binary masks gives, under each label, the
    union of the masks filed under it. *)
Lemma foldl_accumulate_contents items k :
  Forall (λ item, binary item.2) items →
  (foldl accumulate ∅ items !! k = None ↔ masks_of k items = [])
  ∧ ∀ t, foldl accumulate ∅ items !! k = Some t →
      binary t
      ∧ ∀ i j, (t !!! i) !!! j = 1%f32 ↔
          ∃ m, m ∈ masks_of k items ∧ (m !!! i) !!! j = 1%f32.
Proof.
  induction items as [|[k' m] items IH] using rev_ind; intros Hall.
  { split; [done|]. intros t Ht. simpl in Ht. by rewrite lookup_empty in Ht. }
  apply Forall_app in Hall as [Hall Hm]. apply Forall_cons in Hm as [Hm _].
  destruct (IH Hall) as [Hnone Hsome]. rewrite foldl_snoc.
  unfold accumulate at 1 3. simpl in *.
  destruct (decide (k' = k)) as [->|Hne].
  - rewrite masks_of_snoc_eq.
    destruct (foldl accumulate ∅ items !! k) as [old|] eqn:Hold.
    + destruct (Hsome old eq_refl) as [Hbin Hunion].
      rewrite lookup_insert_eq. split.
      { split; [done|]. by intros [_ [=]]%app_eq_nil. }
      intros t [= <-]. split; [by apply clamp_add_is_binary|].
      intros i j. setoid_rewrite elem_of_app.
      destruct (clamp_add_binary old m i j Hbin Hm) as [[-> Hor]|(-> & Ho & Hz)].
      * split; [intros _|done].
        destruct Hor as [Ho|Hn].
        -- apply Hunion in Ho as (m' & Hin & Hone). exists m'. by auto.
        -- exists m. split; [right; by apply list_elem_of_singleton|done].
      * split; [by intros ?%zero_ne_one|].
        intros (m' & [Hin|Hin] & Hone).
        -- assert ((old !!! i) !!! j = 1%f32) as Ho1
             by (apply Hunion; eauto).
           rewrite Ho in Ho1. by apply zero_ne_one in Ho1.
        -- apply list_elem_of_singleton in Hin as ->.
           rewrite Hz in Hone. by apply zero_ne_one in Hone.
    + rewrite lookup_insert_eq. rewrite (proj1 Hnone eq_refl). split; [done|].
      intros t [= <-]. split; [done|]. intros i j. split.
      * intros Hone. exists m. split; [by apply list_elem_of_singleton|done].
      * intros (m' & Hin & Hone). by apply list_elem_of_singleton in Hin as ->.
  - rewrite (masks_of_snoc_ne items k (k', m)) by done.
    destruct (foldl accumulate ∅ items !! k');
      by rewrite lookup_insert_ne.
Qed.

(** What [_load_truth_masks] returns for binary masks: a label has an
    entry exactly when the name of some file gives it, and its mask is
    binary and is 1 exactly at the pixels where one of the masks of these
    files is 1. *)
Theorem load_truth_masks_contents files s σ :
  Forall (λ file, binary file.2) files →
  ∃ r d,
    _load_truth_masks files s σ = Some (Return r, <[r := d]> σ)
    ∧ ∀ k,
        (d !! k = None ↔ masks_of k (labelled s gt_word files) = [])
        ∧ ∀ t, d !! k = Some t →
            binary t
            ∧ ∀ i j, (t !!! i) !!! j = 1%f32 ↔
                ∃ m, m ∈ masks_of k (labelled s gt_word files)
                     ∧ (m !!! i) !!! j = 1%f32.
Proof.
  intros Hall.
  exists (fresh (dom σ)), (foldl accumulate ∅ (labelled s gt_word files)).
  split; [apply load_run, gt_word_lower|].
  intros k. apply foldl_accumulate_contents.
  unfold labelled. apply Forall_fmap.
  eapply Forall_impl; [exact Hall|]. by intros file ?.
Qed.
End loaded_contents.

(** The masks of "car" and of "Bus" end up under "vehicle", which is 1
    at the pixel where the mask of "car" is, and "car" has no entry. *)
Lemma load_truth_masks_contents_witness :
  ∃ r d t,
    _load_truth_masks [("car.gt.png", pixel 1); ("Bus.gt.png", pixel 0)] true ∅
      = Some (Return r, <[r := d]> ∅)
    ∧ d !! "vehicle" = Some t
    ∧ t = pixel 1
    ∧ d !! "car" = None.
Proof.
  assert (Forall (λ file : string * Tensor 1 1, binary file.2)
            [("car.gt.png", pixel 1); ("Bus.gt.png", pixel 0)]) as Hall.
  { constructor; [apply pixel_binary; by right|].
    constructor; [apply pixel_binary; by left|constructor]. }
  destruct (load_truth_masks_contents _ true ∅ Hall) as (r & d & Hrun & Hd).
  assert (labelled true gt_word
            [("car.gt.png", pixel 1); ("Bus.gt.png", pixel 0)]
          = [("vehicle", pixel 1); ("vehicle", pixel 0)]) as Hlab
    by (by vm_compute).
  rewrite Hlab in Hd.
  destruct (Hd "vehicle") as [Hnone Hsome].
  destruct (d !! "vehicle") as [t|] eqn:Ht.
  - exists r, d, t. split; [exact Hrun|]. split; [done|]. split.
    + apply pixel_ext. apply (proj2 (Hsome t eq_refl)).
      exists (pixel 1). split; [left|done].
    + by apply (proj1 (Hd "car")).
  - by pose proof (proj1 Hnone eq_refl).
Defined.

(** ** The composite image *)

Section composite_facts.
Context {rows cols : nat}.
Implicit Types im : vec (vec nat cols) rows.
Implicit Types σ : gmap dref (gmap string (Tensor rows cols)).
Implicit Types d : gmap string (Tensor rows cols).
Implicit Types t m : Tensor rows cols.

Lemma indicator_lookup im v (i : fin rows) (j : fin cols) :
  (indicator im v !!! i) !!! j =
  if decide ((im !!! i) !!! j = v) then 1%f32 else 0%f32.
Proof. unfold indicator. by rewrite !vlookup_map. Qed.

Lemma indicator_in_unit im v : in_unit (indicator im v).
Proof.
  intros i j. rewrite indicator_lookup.
  destruct (decide _); [apply one_unit|apply zero_unit].
Qed.

Lemma pixel_elem im (i : fin rows) (j : fin cols) :
  (im !!! i) !!! j ∈ pixels im.
Proof.
  unfold pixels. apply list_elem_of_In, in_concat.
  exists (vec_to_list (im !!! i)). split.
  - apply list_elem_of_In, list_elem_of_fmap. exists (im !!! i).
    split; [done|]. apply elem_of_vlookup. by exists i.
  - apply list_elem_of_In, elem_of_vlookup. by exists j.
Qed.

Lemma elem_of_np_unique im v : v ∈ np_unique im ↔ v ∈ pixels im.
Proof.
  unfold np_unique. by rewrite merge_sort_Permutation, elem_of_remove_dups.
Qed.

Lemma NoDup_np_unique im : NoDup (np_unique im).
Proof.
  unfold np_unique. rewrite merge_sort_Permutation. apply NoDup_remove_dups.
Qed.

Lemma np_unique_sorted im : StronglySorted le (np_unique im).
Proof. apply (StronglySorted_merge_sort le). Qed.

(** With every value in the vocabulary and every label in lower case,
    the loop runs to its end and folds [accumulate] over the masks of the
    values. *)
Lemma for_values_run masks im vocab values s σ d :
  σ !! masks = Some d →
  lower_keys d →
  (∀ v, v ∈ values →
        ∃ label, vocab !! v = Some label ∧ Str.lower label = label) →
  for_values masks im vocab values s σ =
    Some (None,
          <[masks := foldl accumulate d (composite_items im vocab s values)]> σ).
Proof.
  revert σ d. induction values as [|v values IH]; intros σ d Hd Hkeys Hvoc.
  - simpl. by rewrite insert_id.
  - destruct (Hvoc v) as (label & Hv & Hlow); [left|].
    simpl. rewrite Hv. simpl.
    rewrite (add_mask_accumulate _ _ _ _ _ _ Hd) by by apply coarsen_lower.
    rewrite (IH _ (accumulate d (coarsen s label, indicator im v))).
    + by rewrite insert_insert_eq.
    + apply lookup_insert_eq.
    + apply accumulate_lower_keys; [done|]. by apply coarsen_lower.
    + intros v' Hv'. apply Hvoc. by right.
Qed.

Lemma accumulate_lookup d k m k' t' :
  accumulate d (k, m) !! k' = Some t' →
  (k' ≠ k ∧ d !! k' = Some t')
  ∨ (k' = k ∧ d !! k = None ∧ t' = m)
  ∨ (k' = k ∧ ∃ old, d !! k = Some old ∧ t' = clamp 0 1 (tensor_add old m)).
Proof.
  unfold accumulate. simpl.
  destruct (decide (k' = k)) as [->|Hne].
  - destruct (d !! k) as [old|] eqn:Hk; rewrite lookup_insert_eq;
      intros [= <-]; right; [right|left]; eauto.
  - destruct (d !! k); rewrite lookup_insert_ne by done; by left.
Qed.

Lemma accumulate_lookup_eq d k m :
  ∃ t', accumulate d (k, m) !! k = Some t'
    ∧ ((d !! k = None ∧ t' = m)
       ∨ ∃ old, d !! k = Some old ∧ t' = clamp 0 1 (tensor_add old m)).
Proof.
  unfold accumulate. simpl. destruct (d !! k) as [old|] eqn:Hk;
    rewrite lookup_insert_eq; eexists; (split; [done|]); eauto.
Qed.

Lemma zero_at_accumulate_zero (i : fin rows) (j : fin cols) d k m :
  zero_at i j d → (m !!! i) !!! j = 0%f32 → zero_at i j (accumulate d (k, m)).
Proof.
  intros Hd Hm k' t' [[_ Hk']|[(_ & _ & ->)|(_ & old & Hold & ->)]]%accumulate_lookup.
  - by apply (Hd k').
  - done.
  - rewrite clamp_lookup, tensor_add_lookup, (Hd _ _ Hold), Hm.
    apply clamp_zero_zero.
Qed.

Lemma zero_at_accumulate_one (i : fin rows) (j : fin cols) d k m :
  zero_at i j d → (m !!! i) !!! j = 1%f32 → owned_at i j (accumulate d (k, m)) k.
Proof.
  intros Hd Hm. split.
  - destruct (accumulate_lookup_eq d k m)
      as (t' & Ht' & [[_ ->]|(old & Hold & ->)]);
      (eexists; split; [exact Ht'|]).
    + done.
    + rewrite clamp_lookup, tensor_add_lookup, (Hd _ _ Hold), Hm.
      apply clamp_zero_one.
  - intros k' t' Hne [[_ Hk']|[(-> & _)|(-> & _)]]%accumulate_lookup;
      [by apply (Hd k')|done|done].
Qed.

Lemma owned_at_accumulate_zero (i : fin rows) (j : fin cols) d label k m :
  owned_at i j d label → (m !!! i) !!! j = 0%f32 →
  owned_at i j (accumulate d (k, m)) label.
Proof.
  intros [(t & Ht & Hone) Hzero] Hm. split.
  - destruct (decide (k = label)) as [->|Hne].
    + destruct (accumulate_lookup_eq d label m)
        as (t' & Ht' & [[Hnone _]|(old & Hold & ->)]); [congruence|].
      eexists. split; [exact Ht'|].
      rewrite Ht in Hold. injection Hold as <-.
      rewrite clamp_lookup, tensor_add_lookup, Hone, Hm. apply clamp_one_zero.
    + exists t. split; [|done]. unfold accumulate. simpl.
      destruct (d !! k); by rewrite lookup_insert_ne.
  - intros k' t' Hne [[_ Hk']|[(-> & _ & ->)|(-> & old & Hold & ->)]]%accumulate_lookup.
    + by apply (Hzero k').
    + done.
    + rewrite clamp_lookup, tensor_add_lookup, (Hzero _ _ Hne Hold), Hm.
      apply clamp_zero_zero.
Qed.

(** The masks of distinct values, folded into a dict: a pixel ends up
    in the mask of the label of its value and in no other. *)
Lemma foldl_composite_owned im vocab s values d (i : fin rows) (j : fin cols) :
  NoDup values →
  ((im !!! i) !!! j ∈ values ∧ zero_at i j d)
  ∨ (((im !!! i) !!! j ∉ values)
     ∧ owned_at i j d
         (coarsen s (default EmptyString (vocab !! ((im !!! i) !!! j))))) →
  owned_at i j (foldl accumulate d (composite_items im vocab s values))
    (coarsen s (default EmptyString (vocab !! ((im !!! i) !!! j)))).
Proof.
  intros Hnd. revert d. induction Hnd as [|v values Hv Hnd IH]; intros d Hinv.
  - destruct Hinv as [[Hin _]|[_ Hown]]; [by apply elem_of_nil in Hin|done].
  - simpl. apply IH.
    destruct (decide (v = (im !!! i) !!! j)) as [->|Hne].
    + right. split; [done|].
      destruct Hinv as [[_ Hzero]|[Hout _]]; [|by destruct Hout; left].
      apply zero_at_accumulate_one; [done|].
      rewrite indicator_lookup. by rewrite decide_True.
    + assert ((indicator im v !!! i) !!! j = 0%f32) as Hind
        by (by rewrite indicator_lookup, decide_False by congruence).
      destruct Hinv as [[Hin Hzero]|[Hout Hown]].
      * left. split; [by apply elem_of_cons in Hin as [?|?]|].
        by apply zero_at_accumulate_zero.
      * right. split; [by intros ?; apply Hout; right|].
        by apply owned_at_accumulate_zero.
Qed.

Lemma composite_cut im vocab s σ :
  (∀ v, v ∈ pixels im →
        ∃ label, vocab_or_default vocab !! v = Some label
                 ∧ Str.lower label = label) →
  ∃ r d,
    _load_pred_masks_composite im vocab s σ = Some (inl r, <[r := d]> σ)
    ∧ σ !! r = None
    ∧ ∀ i j, ∃ label,
        vocab_or_default vocab !! ((im !!! i) !!! j) = Some label
        ∧ owned_at i j d (coarsen s label).
Proof.
  intros Hvoc.
  exists (fresh (dom σ)),
    (foldl accumulate ∅
       (composite_items im (vocab_or_default vocab) s (np_unique im))).
  split; [|split].
  - unfold _load_pred_masks_composite. simpl.
    rewrite (for_values_run _ _ _ _ _ _ ∅);
      [|apply lookup_insert_eq|by intros k [? ?]|].
    + by rewrite insert_insert_eq.
    + intros v Hv. by apply Hvoc, elem_of_np_unique.
  - apply not_elem_of_dom, is_fresh.
  - intros i j. destruct (Hvoc _ (pixel_elem im i j)) as (label & Hlabel & _).
    exists label. split; [done|].
    pose proof (foldl_composite_owned im (vocab_or_default vocab) s
                  (np_unique im) ∅ i j (NoDup_np_unique im)) as Hown.
    rewrite Hlabel in Hown. simpl in Hown. apply Hown. left.
    split; [apply elem_of_np_unique, pixel_elem|]. by intros k t ?.
Qed.

(** The composite image is cut into the masks of its labels.  When
    every value of the image is an index of the vocabulary and the labels
    at these indices are in lower case, the composite branch returns a new
    dict in which each pixel is 1 in the mask of the label of its value,
    remapped if asked, and 0 in every other mask. *)
Theorem composite_partition im vocab s σ :
  (∀ v, v ∈ pixels im →
        ∃ label, vocab_or_default vocab !! v = Some label
                 ∧ Str.lower label = label) →
  ∃ r d,
    _load_pred_masks_composite im vocab s σ = Some (inl r, <[r := d]> σ)
    ∧ σ !! r = None
    ∧ ∀ i j, ∃ label,
        vocab_or_default vocab !! ((im !!! i) !!! j) = Some label
        ∧ owned_at i j d (coarsen s label).
Proof. apply composite_cut. Qed.

(** The loop over increasing values stops at the first value that is
    past the end of the vocabulary. *)
Lemma for_values_index_error masks im vocab values s σ d :
  σ !! masks = Some d →
  lower_keys d →
  StronglySorted le values →
  (∀ v label, v ∈ values → vocab !! v = Some label → Str.lower label = label) →
  (∃ v, v ∈ values ∧ (length vocab ≤ v)%nat) →
  ∃ v0 σ',
    for_values masks im vocab values s σ = Some (Some (IndexError v0), σ')
    ∧ v0 ∈ values
    ∧ (length vocab ≤ v0)%nat
    ∧ ∀ v, v ∈ values → (length vocab ≤ v)%nat → (v0 ≤ v)%nat.
Proof.
  intros Hd Hkeys Hsorted. revert σ d Hd Hkeys.
  induction Hsorted as [|v values Hsorted IH Hhead];
    intros σ d Hd Hkeys Hlow (w & Hw & Hout).
  - by apply elem_of_nil in Hw.
  - simpl. destruct (vocab !! v) as [label|] eqn:Hv.
    + pose proof (lookup_lt_Some _ _ _ Hv) as Hin.
      rewrite (add_mask_accumulate _ _ _ _ _ _ Hd)
        by (apply coarsen_lower, (Hlow v); [left|done]).
      destruct (IH (<[masks := accumulate d (coarsen s label, indicator im v)]> σ)
                  (accumulate d (coarsen s label, indicator im v)))
        as (v0 & σ' & Hrun & Hv0 & Hout0 & Hmin).
      * apply lookup_insert_eq.
      * apply accumulate_lower_keys; [done|].
        apply coarsen_lower, (Hlow v); [left|done].
      * intros v' label' Hv'. apply Hlow. by right.
      * exists w. split; [|done].
        apply elem_of_cons in Hw as [->|Hw]; [lia|done].
      * exists v0, σ'. split; [done|]. split; [by right|]. split; [done|].
        intros v' [->|Hv']%elem_of_cons Hout'; [lia|by apply Hmin].
    + exists v, σ. split; [done|]. split; [left|].
      apply lookup_ge_None in Hv. split; [done|].
      intros v' [->|Hv']%elem_of_cons _; [done|].
      by apply (proj1 (Forall_forall _ _) Hhead).
Qed.

(** A value past the end of the vocabulary: the composite branch ends
    with the [IndexError] of [vocab[mask_idx]], for the least value of
    the image that is no index of the vocabulary.  The labels of the
    values before it are taken to be in lower case. *)
Theorem composite_index_error im vocab s σ :
  (∀ v label, v ∈ pixels im → vocab_or_default vocab !! v = Some label →
              Str.lower label = label) →
  (∃ v, v ∈ pixels im ∧ (length (vocab_or_default vocab) ≤ v)%nat) →
  ∃ v0 σ',
    _load_pred_masks_composite im vocab s σ = Some (inr (IndexError v0), σ')
    ∧ v0 ∈ pixels im
    ∧ (length (vocab_or_default vocab) ≤ v0)%nat
    ∧ ∀ v, v ∈ pixels im → (length (vocab_or_default vocab) ≤ v)%nat →
           (v0 ≤ v)%nat.
Proof.
  intros Hlow (w & Hw & Hout).
  destruct (for_values_index_error (fresh (dom σ)) im (vocab_or_default vocab)
              (np_unique im) s (<[fresh (dom σ) := ∅]> σ) ∅)
    as (v0 & σ' & Hrun & Hv0 & Hout0 & Hmin).
  - apply lookup_insert_eq.
  - by intros k [? ?].
  - apply np_unique_sorted.
  - intros v label Hv. by apply Hlow, elem_of_np_unique.
  - exists w. split; [by apply elem_of_np_unique|done].
  - exists v0, σ'. unfold _load_pred_masks_composite. simpl. rewrite Hrun.
    split; [done|]. split; [by apply elem_of_np_unique|]. split; [done|].
    intros v Hv. by apply Hmin, elem_of_np_unique.
Qed.

Lemma unused_labels_facts :
  Forall (λ label, Str.lower label = label ∧ COCO80_TO_27 !! label = None)
    UNUSED_LABELS.
Proof. apply (bool_decide_unpack _). vm_compute. exact I. Qed.

Lemma unused_labels_lookup (v : nat) :
  (v < 199)%nat →
  UNUSED_LABELS !! v = Some ("__unused_" +:+ pretty (S v) +:+ "__").
Proof.
  intros Hv. unfold UNUSED_LABELS.
  by rewrite list_lookup_fmap, lookup_seq_lt.
Qed.

Lemma unused_labels_lower (v : nat) (label : string) :
  UNUSED_LABELS !! v = Some label →
  Str.lower label = label ∧ COCO80_TO_27 !! label = None.
Proof.
  intros Hv. apply (proj1 (Forall_forall _ _) unused_labels_facts).
  by apply list_elem_of_lookup_2 in Hv.
Qed.

(** Without a vocabulary, a composite image whose values are all below
    199 is cut into the masks of the default labels: a pixel of value [v]
    is 1 in the mask of the label [__unused_N__] with [N = v + 1] and 0 in
    every other mask, with or without remapping. *)
Theorem composite_default_vocab im s σ :
  (∀ v, v ∈ pixels im → (v < 199)%nat) →
  ∃ r d,
    _load_pred_masks_composite im None s σ = Some (inl r, <[r := d]> σ)
    ∧ ∀ i j,
        owned_at i j d ("__unused_" +:+ pretty (S ((im !!! i) !!! j)) +:+ "__").
Proof.
  intros Hsmall.
  destruct (composite_cut im None s σ) as (r & d & Hrun & _ & Hown).
  - intros v Hv. exists ("__unused_" +:+ pretty (S v) +:+ "__").
    pose proof (unused_labels_lookup v (Hsmall v Hv)) as Hlook.
    split; [done|]. by apply (unused_labels_lower v).
  - exists r, d. split; [done|]. intros i j.
    destruct (Hown i j) as (label & Hlabel & Hlab).
    simpl in Hlabel.
    rewrite (unused_labels_lookup _ (Hsmall _ (pixel_elem im i j))) in Hlabel.
    injection Hlabel as <-.
    destruct (unused_labels_lower _ _
                (unused_labels_lookup _ (Hsmall _ (pixel_elem im i j))))
      as [_ Habs].
    by rewrite (coarsen_absent_any s _ Habs) in Hlab.
Qed.
End composite_facts.

Lemma composite_partition_witness :
  ∃ r d,
    _load_pred_masks_composite ([# [# 0; 1; 1]%nat] : vec (vec nat 3) 1)
      (Some ["sky"; "cat"]) true ∅ = Some (inl r, <[r := d]> ∅)
    ∧ owned_at 0%fin 1%fin d "animal".
Proof.
  destruct (composite_partition ([# [# 0; 1; 1]%nat] : vec (vec nat 3) 1)
              (Some ["sky"; "cat"]) true ∅) as (r & d & Hrun & _ & Hown).
  - intros v Hv.
    apply list_elem_of_In in Hv. simpl in Hv.
    destruct Hv as [<-|[<-|[<-|[]]]]; eexists; by split.
  - exists r, d. split; [done|].
    destruct (Hown 0%fin 1%fin) as (label & Hlabel & Hlab).
    injection Hlabel as <-. exact Hlab.
Defined.

Lemma composite_index_error_witness :
  ∃ v0 σ',
    _load_pred_masks_composite ([# [# 3; 200]%nat] : vec (vec nat 2) 1)
      None false ∅ = Some (inr (IndexError v0), σ')
    ∧ (199 ≤ v0)%nat.
Proof.
  destruct (composite_index_error ([# [# 3; 200]%nat] : vec (vec nat 2) 1)
              None false ∅) as (v0 & σ' & Hrun & _ & Hout & _).
  - intros v label _ Hv. by apply (unused_labels_lower v).
  - exists 200%nat. split; [|vm_compute; lia].
    apply list_elem_of_In. simpl. tauto.
  - by exists v0, σ'.
Defined.

Lemma composite_default_vocab_witness :
  ∃ r d,
    _load_pred_masks_composite ([# [# 0; 7]%nat] : vec (vec nat 2) 1)
      None true ∅ = Some (inl r, <[r := d]> ∅)
    ∧ owned_at 0%fin 1%fin d "__unused_8__".
Proof.
  destruct (composite_default_vocab ([# [# 0; 7]%nat] : vec (vec nat 2) 1)
              true ∅) as (r & d & Hrun & Hown).
  - intros v Hv. apply list_elem_of_In in Hv. simpl in Hv.
    destruct Hv as [<-|[<-|[]]]; lia.
  - exists r, d. split; [done|]. exact (Hown 0%fin 1%fin).
Defined.


(** ** Binary masks, and the two maps of a record *)

Section binary_masks.
Context {rows cols : nat}.
Implicit Types σ : gmap dref (gmap string (Tensor rows cols)).
Implicit Types d : gmap string (Tensor rows cols).
Implicit Types a b : Tensor rows cols.

(** Merging binary masks is their union.  When the label, remapped if
    asked, is in lower case and its entry is a binary mask, accumulating
    a binary mask leaves a binary mask that is 1 exactly where one of the
    two is; accumulating the mask that is there already changes
    nothing. *)
Theorem add_mask_binary_union masks word a b s σ d :
  σ !! masks = Some d →
  d !! coarsen s word = Some a →
  Str.lower (coarsen s word) = coarsen s word →
  binary a → binary b →
  ∃ t,
    _add_mask masks word b s σ
      = Some (Return masks, <[masks := <[coarsen s word := t]> d]> σ)
    ∧ binary t
    ∧ (∀ i j, (t !!! i) !!! j = 1%f32 ↔
              (a !!! i) !!! j = 1%f32 ∨ (b !!! i) !!! j = 1%f32)
    ∧ (a = b → t = a).
Proof.
  intros Hd Hw Hlow Ha Hb. exists (clamp 0 1 (tensor_add a b)).
  split; [|split; [|split]].
  - apply (add_mask_merge_at _ _ _ _ _ _ a a Hd Hw). by rewrite Hlow.
  - intros i j.
    destruct (clamp_add_binary a b i j Ha Hb) as [[-> _]|[-> _]]; auto.
  - intros i j.
    destruct (clamp_add_binary a b i j Ha Hb) as [[-> Hor]|(-> & Ha0 & Hb0)].
    + done.
    + rewrite Ha0, Hb0. split; [by intros ?%zero_ne_one|].
      by intros [?%zero_ne_one|?%zero_ne_one].
  - intros <-. apply tensor_ext. intros i j.
    destruct (clamp_add_binary a a i j Ha Ha) as [[-> [Ho|Ho]]|(-> & Ha0 & _)];
      by rewrite ?Ho, ?Ha0.
Qed.

(** The two maps of a loaded record are two objects.  [load] gets the
    ground-truth masks, then the predicted masks: the two dicts it
    returns are distinct and new to the store, and loading the second
    leaves the first as it was. *)
Theorem load_masks_distinct truth_files pred_prefix pred_files s σ :
  ∃ r1 r2 d1 d2 σ',
    load_masks truth_files pred_prefix pred_files s σ
      = Some (Return (r1, r2), σ')
    ∧ r1 ≠ r2
    ∧ σ !! r1 = None ∧ σ !! r2 = None
    ∧ σ' !! r1 = Some d1 ∧ σ' !! r2 = Some d2
    ∧ _load_truth_masks truth_files s σ = Some (Return r1, <[r1 := d1]> σ)
    ∧ ∀ r, r ≠ r1 → r ≠ r2 → σ' !! r = σ !! r.
Proof.
  set (r1 := fresh (dom σ)).
  set (d1 := foldl accumulate ∅ (labelled s gt_word truth_files)).
  set (σ1 := <[r1 := d1]> σ).
  set (r2 := fresh (dom σ1)).
  set (d2 := foldl accumulate ∅ (labelled s (pred_word pred_prefix) pred_files)).
  assert (_load_truth_masks truth_files s σ = Some (Return r1, σ1)) as Hrun1
    by apply load_run, gt_word_lower.
  assert (_load_pred_masks_files pred_prefix pred_files s σ1
          = Some (Return r2, <[r2 := d2]> σ1)) as Hrun2
    by apply load_run, pred_word_lower.
  assert (σ1 !! r2 = None) as Hfresh2 by apply not_elem_of_dom, is_fresh.
  assert (σ !! r1 = None) as Hfresh1 by apply not_elem_of_dom, is_fresh.
  assert (r1 ≠ r2) as Hne.
  { intros Heq. rewrite <- Heq in Hfresh2. unfold σ1 in Hfresh2.
    by rewrite lookup_insert_eq in Hfresh2. }
  exists r1, r2, d1, d2, (<[r2 := d2]> σ1).
  split; [|split; [done|split; [done|split; [|split; [|split; [|split; [done|]]]]]]].
  - unfold load_masks, py_bind. by rewrite Hrun1, Hrun2.
  - unfold σ1 in Hfresh2. by rewrite lookup_insert_ne in Hfresh2.
  - rewrite lookup_insert_ne by done. apply lookup_insert_eq.
  - apply lookup_insert_eq.
  - intros r Hr1 Hr2. unfold σ1. by rewrite !lookup_insert_ne.
Qed.
End binary_masks.

Lemma add_mask_binary_union_witness :
  binary (pixel 1)
  ∧ ∃ t,
      _add_mask 1%positive "cat" (pixel 1) false (one_dict {["cat" := pixel 1]})
        = Some (Return 1%positive,
                <[1%positive := <["cat" := t]> {["cat" := pixel 1]}]>
                  (one_dict {["cat" := pixel 1]}))
      ∧ t = pixel 1.
Proof.
  assert (binary (pixel 1)) as Hbin.
  { intros i j. inv_fin i; [|intros i; inv_fin i].
    inv_fin j; [|intros j; inv_fin j]. by right. }
  split; [exact Hbin|].
  destruct (add_mask_binary_union 1%positive "cat" (pixel 1) (pixel 1) false
              (one_dict {["cat" := pixel 1]}) {["cat" := pixel 1]})
    as (t & Hrun & _ & _ & Hsame);
    [apply one_dict_lookup|apply lookup_singleton_eq|reflexivity|done|done|].
  exists t. split; [exact Hrun|by apply Hsame].
Defined.
